(** * node-aead-crypto: AES-GCM seal and open (src/node-aes-gcm.cc)

    A shallow embedding of [gcm::Encrypt] and [gcm::Decrypt].  The two
    methods are straight-line programs that validate their JavaScript
    arguments and then drive OpenSSL's EVP interface.  OpenSSL is not part
    of the repository, so the embedding keeps every EVP call as a visible
    request: a method is a term of the small program monad [Prog], and a
    [Handler] (the primitive) answers each request.  Running a program
    against a handler yields the method's outcome, the primitive's final
    state and the list of calls that were made, in order. *)

From Stdlib Require Import String.
From Stdlib.Strings Require Import Byte.
From Stdlib Require Import ZArith List Bool Lia.
Import ListNotations.

Local Open Scope Z_scope.

(** ** Machine integers

    The code mixes [size_t] (64 bit, unsigned), [int] (32 bit, signed) and
    [uint32_t].  Values are kept in [Z]; every conversion and every
    unsigned operation writes its wrap-around out. *)

Module CInt.

Definition SIZE_MAX : Z := 2 ^ 64 - 1.
Definition INT_MAX : Z := 2 ^ 31 - 1.

(** Conversion to [size_t]: reduction modulo 2^64. *)
Definition to_size_t (z : Z) : Z := z mod 2 ^ 64.

(** Conversion to [int]: the two's complement value of the low 32 bits. *)
Definition to_int (z : Z) : Z := (z + 2 ^ 31) mod 2 ^ 32 - 2 ^ 31.

(** Conversion to [uint32_t]. *)
Definition to_uint32 (z : Z) : Z := z mod 2 ^ 32.

(** [size_t] arithmetic. *)
Definition size_sub (a b : Z) : Z := to_size_t (a - b).
Definition size_add (a b : Z) : Z := to_size_t (a + b).
Definition size_mul (a b : Z) : Z := to_size_t (a * b).
Definition size_div (a b : Z) : Z := a / b.

(** An unsigned subtraction underflows when its result is not the
    mathematical difference. *)
Definition size_sub_underflows (a b : Z) : bool := negb (size_sub a b =? a - b).

End CInt.
Import CInt.

(** ** Bytes, buffers and JavaScript values *)

Definition bytes : Type := list byte.

Definition len (b : bytes) : Z := Z.of_nat (length b).

Fixpoint bytes_eqb (a b : bytes) : bool :=
  match a, b with
  | [], [] => true
  | x :: a', y :: b' => Byte.eqb x y && bytes_eqb a' b'
  | _, _ => false
  end.

(** What the argument checks can tell apart in a [v8::Value]. *)
Inductive Value : Type :=
| Undefined
| Null
| Buffer (data : bytes)
| Other.

(** [info[i]]: an index past the end reads as [undefined]. *)
Definition arg (info : list Value) (i : nat) : Value := nth i info Undefined.

Definition HasInstance (v : Value) : bool :=
  match v with Buffer _ => true | _ => false end.

Definition IsUndefined (v : Value) : bool :=
  match v with Undefined => true | _ => false end.

Definition IsNull (v : Value) : bool :=
  match v with Null => true | _ => false end.

(** The bytes of a buffer, that is what [Buffer::Data] points at, and
    [Buffer::Length]; only applied to buffers. *)
Definition Data (v : Value) : bytes :=
  match v with Buffer d => d | _ => [] end.

Definition Length (v : Value) : Z := len (Data v).

(** [Buffer::Data] as the pointer it is: a buffer without bytes has no
    backing store and its data pointer is [NULL].  Key, IV and tag reach the
    primitive as such pointers, without a length. *)
Definition DataPointer (v : Value) : option bytes :=
  match Data v with
  | [] => None
  | d => Some d
  end.

(** ** Raw memory owned by a call

    [new unsigned char[n]] gives [n] bytes of indeterminate content
    ([uninit_byte]).  A store through a pointer [buf + off] that leaves the
    allocation, and a read of more bytes than were allocated, have no defined
    behaviour: [store] and [CopyBuffer] answer [None] there. *)

Definition new_uchar (uninit_byte : byte) (n : Z) : bytes :=
  repeat uninit_byte (Z.to_nat n).

Definition store (buf : bytes) (off : Z) (bs : bytes) : option bytes :=
  if (0 <=? off) && (off + len bs <=? len buf)
  then Some (firstn (Z.to_nat off) buf ++ bs
             ++ skipn (Z.to_nat off + length bs) buf)
  else None.

(** [Nan::CopyBuffer(data, size)]. *)
Definition CopyBuffer (buf : bytes) (size : Z) : option bytes :=
  if size <=? len buf then Some (firstn (Z.to_nat size) buf) else None.

(** ** The EVP interface *)

Definition AUTH_TAG_LEN : Z := 16.

Inductive Cipher : Type := aes_128_gcm | aes_192_gcm | aes_256_gcm.

Inductive CtrlType : Type :=
| EVP_CTRL_GCM_SET_IVLEN
| EVP_CTRL_GCM_GET_TAG
| EVP_CTRL_GCM_SET_TAG.

(** The out pointer of an update: [NULL] or the output buffer. *)
Inductive OutPtr : Type := OutNULL | OutBuf.

(** One call into OpenSSL with the arguments the code passes.  A context
    pointer is an address ([0] is [NULL]); a pointer to input bytes is given
    by the bytes it points at, [None] for [NULL].  The input of an update
    comes with its length and is given by its bytes alone.  The [ENGINE *]
    argument of the init calls is always [NULL] and is left out. *)
Inductive EVPCall : Type :=
| EVP_CIPHER_CTX_new
| EVP_EncryptInit_ex (ctx : Z) (cipher : option Cipher) (key iv : option bytes)
| EVP_DecryptInit_ex (ctx : Z) (cipher : option Cipher) (key iv : option bytes)
| EVP_CIPHER_CTX_ctrl (ctx : Z) (type : CtrlType) (arg : Z) (ptr : option bytes)
| EVP_EncryptUpdate (ctx : Z) (out : OutPtr) (inp : bytes) (inl : Z)
| EVP_DecryptUpdate (ctx : Z) (out : OutPtr) (inp : bytes) (inl : Z)
| EVP_EncryptFinal_ex (ctx : Z)
| EVP_DecryptFinal_ex (ctx : Z)
| EVP_CIPHER_CTX_free (ctx : Z).

(** What a call gives back: its return value (status, or the new context's
    address), the value it stored through [int *outl] if it stored one, and
    the bytes it stored through its output pointer.  The last two matter
    only for the calls that are handed [&outl] and a buffer to write to. *)
Record Response : Type := mkResponse {
  ret : Z;
  outl_store : option Z;
  out_store : bytes
}.

(** ** Programs over the EVP interface *)

Inductive Prog (A : Type) : Type :=
| Ret (a : A)
| Call (c : EVPCall) (k : Response -> Prog A).

Arguments Ret {A} a.
Arguments Call {A} c k.

Fixpoint bind {A B : Type} (p : Prog A) (f : A -> Prog B) : Prog B :=
  match p with
  | Ret a => f a
  | Call c k => Call c (fun r => bind (k r) f)
  end.

Definition call (c : EVPCall) : Prog Response := Call c Ret.

Declare Scope prog_scope.
Delimit Scope prog_scope with prog.
Notation "x <- p ;; q" := (bind p (fun x => q))
  (at level 100, p at next level, right associativity) : prog_scope.
Notation "p ;; q" := (bind p (fun _ => q))
  (at level 100, right associativity) : prog_scope.

(** How a method ends. *)
Inductive Outcome (A : Type) : Type :=
| Throws (message : string)      (* Nan::ThrowError, then return *)
| Returns (value : A)            (* info.GetReturnValue().Set *)
| Fault.                         (* out-of-bounds access *)

Arguments Throws {A} message.
Arguments Returns {A} value.
Arguments Fault {A}.

(** The primitive: a transition system that answers calls. *)
Definition Handler (World : Type) : Type := EVPCall -> World -> Response * World.

Definition Trace : Type := list (EVPCall * Response).

Fixpoint run {World A : Type} (h : Handler World) (p : Prog A) (w : World)
  : A * World * Trace :=
  match p with
  | Ret a => (a, w, [])
  | Call c k =>
      let (r, w1) := h c w in
      let '(a, w2, t) := run h (k r) w1 in
      (a, w2, (c, r) :: t)
  end.

Definition outcome_of {World A : Type} (x : A * World * Trace) : A := fst (fst x).
Definition world_of {World A : Type} (x : A * World * Trace) : World := snd (fst x).
Definition trace_of {World A : Type} (x : A * World * Trace) : Trace := snd x.
Definition calls_of {World A : Type} (x : A * World * Trace) : list EVPCall :=
  map fst (snd x).

(** ** The two methods *)

Record EncryptResult : Type := mkEncryptResult {
  ciphertext : bytes;
  auth_tag : bytes
}.

Record DecryptResult : Type := mkDecryptResult {
  plaintext : bytes;
  auth_ok : bool
}.

Definition Encrypt_arguments_message : string :=
  "Not enough (or wrong) arguments specified. Required: key (Buffer), iv (Buffer), plaintext (Buffer), auth_data (Buffer | NULL)."%string.

Definition Decrypt_arguments_message : string :=
  "Not enough (or wrong) arguments specified. Required: key (Buffer), iv (Buffer), ciphertext (Buffer), auth_data (Buffer | NULL), auth tag (Buffer, 16 bytes)."%string.

Definition key_length_message : string :=
  "Invalid key length specified. Allowed are 128, 192 and 256 bits."%string.

(** The [switch (key_len)] of both methods; [None] is its [default]. *)
Definition cipher_type_of (key_len : Z) : option Cipher :=
  if key_len =? 16 then Some aes_128_gcm
  else if key_len =? 24 then Some aes_192_gcm
  else if key_len =? 32 then Some aes_256_gcm
  else None.

(** Line 94: [(((plaintext_len - 1) / key_len) + 1) * key_len] in [size_t]. *)
Definition Encrypt_ciphertext_len (key_len plaintext_len : Z) : Z :=
  size_mul (size_add (size_div (size_sub plaintext_len 1) key_len) 1) key_len.

(** Line 208: [(((ciphertext_len - 1) / 16) + 1) * 16] in [size_t]. *)
Definition Decrypt_plaintext_len (ciphertext_len : Z) : Z :=
  size_mul (size_add (size_div (size_sub ciphertext_len 1) 16) 1) 16.

(** The value of [outl] after a call that was handed [&outl]. *)
Definition stored (outl : Z) (r : Response) : Z :=
  match outl_store r with Some v => v | None => outl end.

(** The condition of the first [if] of [gcm::Encrypt]. *)
Definition Encrypt_bad_arguments (info : list Value) : bool :=
  (Z.of_nat (length info) <? 4)
  || negb (HasInstance (arg info 0))
  || negb (HasInstance (arg info 1))
  || negb (HasInstance (arg info 2))
  || negb (IsUndefined (arg info 3) || IsNull (arg info 3)
           || HasInstance (arg info 3)).

(** The condition of the first [if] of [gcm::Decrypt]. *)
Definition Decrypt_bad_arguments (info : list Value) : bool :=
  (Z.of_nat (length info) <? 5)
  || negb (HasInstance (arg info 0))
  || negb (HasInstance (arg info 1))
  || negb (HasInstance (arg info 2))
  || negb (IsUndefined (arg info 3) || IsNull (arg info 3)
           || HasInstance (arg info 3))
  || negb (HasInstance (arg info 4))
  || negb (Length (arg info 4) =? AUTH_TAG_LEN).

Section Methods.

(** Indeterminate values: the content of fresh [new] memory and of the
    uninitialised local [int outl]. *)
Variable uninit_byte : byte.
Variable uninit_int : Z.

Local Open Scope prog_scope.

Definition Encrypt (info : list Value) : Prog (Outcome EncryptResult) :=
  if Encrypt_bad_arguments info then Ret (Throws Encrypt_arguments_message)
  else
    let key := DataPointer (arg info 0) in
    let key_len := Length (arg info 0) in
    match cipher_type_of key_len with
    | None => Ret (Throws key_length_message)
    | Some cipher_type =>
        let iv := DataPointer (arg info 1) in
        let iv_len := Length (arg info 1) in
        let plaintext := Data (arg info 2) in
        let plaintext_len := Length (arg info 2) in
        let ciphertext_len := Encrypt_ciphertext_len key_len plaintext_len in
        let ciphertext := new_uchar uninit_byte ciphertext_len in
        let hasAuthData := HasInstance (arg info 3) in
        let aad := Data (arg info 3) in
        let aad_len := if hasAuthData then Length (arg info 3) else 0 in
        let auth_tag := new_uchar uninit_byte AUTH_TAG_LEN in
        r <- call EVP_CIPHER_CTX_new ;;
        let ctx := ret r in
        call (EVP_EncryptInit_ex ctx (Some cipher_type) None None) ;;
        call (EVP_CIPHER_CTX_ctrl ctx EVP_CTRL_GCM_SET_IVLEN (to_int iv_len) None) ;;
        call (EVP_EncryptInit_ex ctx None key iv) ;;
        let outl := uninit_int in
        outl <- (if hasAuthData
                 then r <- call (EVP_EncryptUpdate ctx OutNULL aad (to_int aad_len)) ;;
                      Ret (stored outl r)
                 else Ret outl) ;;
        r <- call (EVP_EncryptUpdate ctx OutBuf plaintext (to_int plaintext_len)) ;;
        match store ciphertext 0 (out_store r) with
        | None => Ret Fault
        | Some ciphertext =>
            let outl := stored outl r in
            let ciphertext_len := to_size_t outl in
            r <- call (EVP_EncryptFinal_ex ctx) ;;
            match store ciphertext outl (out_store r) with
            | None => Ret Fault
            | Some ciphertext =>
                let outl := stored outl r in
                let ciphertext_len := size_add ciphertext_len outl in
                r <- call (EVP_CIPHER_CTX_ctrl ctx EVP_CTRL_GCM_GET_TAG
                             AUTH_TAG_LEN (Some auth_tag)) ;;
                match store auth_tag 0 (out_store r) with
                | None => Ret Fault
                | Some auth_tag =>
                    call (EVP_CIPHER_CTX_free ctx) ;;
                    match CopyBuffer ciphertext (to_uint32 ciphertext_len),
                          CopyBuffer auth_tag AUTH_TAG_LEN with
                    | Some ciphertext_buf, Some auth_tag_buf =>
                        Ret (Returns (mkEncryptResult ciphertext_buf auth_tag_buf))
                    | _, _ => Ret Fault
                    end
                end
            end
        end
    end.

Definition Decrypt (info : list Value) : Prog (Outcome DecryptResult) :=
  if Decrypt_bad_arguments info then Ret (Throws Decrypt_arguments_message)
  else
    let key := DataPointer (arg info 0) in
    let key_len := Length (arg info 0) in
    match cipher_type_of key_len with
    | None => Ret (Throws key_length_message)
    | Some cipher_type =>
        let iv := DataPointer (arg info 1) in
        let iv_len := Length (arg info 1) in
        let ciphertext := Data (arg info 2) in
        let ciphertext_len := Length (arg info 2) in
        let plaintext_len := Decrypt_plaintext_len ciphertext_len in
        let plaintext := new_uchar uninit_byte plaintext_len in
        let hasAuthData := HasInstance (arg info 3) in
        let aad := Data (arg info 3) in
        let aad_len := if hasAuthData then Length (arg info 3) else 0 in
        let auth_tag := DataPointer (arg info 4) in
        r <- call EVP_CIPHER_CTX_new ;;
        let ctx := ret r in
        call (EVP_DecryptInit_ex ctx (Some cipher_type) None None) ;;
        call (EVP_CIPHER_CTX_ctrl ctx EVP_CTRL_GCM_SET_IVLEN (to_int iv_len) None) ;;
        call (EVP_DecryptInit_ex ctx None key iv) ;;
        let outl := uninit_int in
        outl <- (if hasAuthData
                 then r <- call (EVP_DecryptUpdate ctx OutNULL aad (to_int aad_len)) ;;
                      Ret (stored outl r)
                 else Ret outl) ;;
        r <- call (EVP_DecryptUpdate ctx OutBuf ciphertext (to_int ciphertext_len)) ;;
        match store plaintext 0 (out_store r) with
        | None => Ret Fault
        | Some plaintext =>
            let outl := stored outl r in
            let plaintext_len := to_size_t outl in
            call (EVP_CIPHER_CTX_ctrl ctx EVP_CTRL_GCM_SET_TAG
                    AUTH_TAG_LEN auth_tag) ;;
            r <- call (EVP_DecryptFinal_ex ctx) ;;
            match store plaintext outl (out_store r) with
            | None => Ret Fault
            | Some plaintext =>
                let auth_ok := negb (ret r =? 0) in
                let outl := stored outl r in
                let plaintext_len := size_add plaintext_len outl in
                call (EVP_CIPHER_CTX_free ctx) ;;
                match CopyBuffer plaintext (to_uint32 plaintext_len) with
                | Some plaintext_buf =>
                    Ret (Returns (mkDecryptResult plaintext_buf auth_ok))
                | None => Ret Fault
                end
            end
        end
    end.

End Methods.

(** ** A reference primitive

    OpenSSL is an external library; what the methods compute depends on how
    it answers.  This module states the behaviour of the EVP interface for
    AES-GCM that the code relies on (the OpenSSL page the source points at),
    as a transition system over the set of live contexts.  The block cipher
    itself stays abstract: [crypt] is the counter-mode pass at a given stream
    offset and [mac] the tag function; the theorems that need more than the
    call protocol assume GCM's laws about them. *)

Module Reference.

Record Context : Type := mkContext {
  c_encrypt : bool;            (* set up by EncryptInit or by DecryptInit *)
  c_cipher : option Cipher;
  c_ivlen : Z;
  c_key : option bytes;
  c_iv : option bytes;
  c_aad : bytes;               (* associated data absorbed so far *)
  c_text : bytes;              (* ciphertext produced or consumed so far *)
  c_final : bool;
  c_tag : option bytes         (* reference tag installed by SET_TAG *)
}.

Definition fresh : Context :=
  mkContext false None 12 None None [] [] false None.

Record World : Type := mkWorld {
  next : positive;
  live : list (positive * Context)
}.

Definition initial : World := mkWorld 1 [].

Fixpoint find (p : positive) (l : list (positive * Context)) : option Context :=
  match l with
  | [] => None
  | (q, c) :: l' => if Pos.eqb p q then Some c else find p l'
  end.

Definition lookup (w : World) (ctx : Z) : option Context :=
  match ctx with
  | Zpos p => find p (live w)
  | _ => None
  end.

Definition remove (p : positive) (l : list (positive * Context))
  : list (positive * Context) :=
  filter (fun e => negb (Pos.eqb p (fst e))) l.

Definition update (w : World) (ctx : Z) (c : Context) : World :=
  match ctx with
  | Zpos p => mkWorld (next w) ((p, c) :: remove p (live w))
  | _ => w
  end.

Definition release (w : World) (ctx : Z) : World :=
  match ctx with
  | Zpos p => mkWorld (next w) (remove p (live w))
  | _ => w
  end.

Definition failed : Response := mkResponse 0 None [].
Definition succeeded : Response := mkResponse 1 None [].

Definition or_keep {A : Type} (new old : option A) : option A :=
  match new with Some _ => new | None => old end.

Section Primitive.

Variable crypt : Cipher -> bytes -> bytes -> nat -> bytes -> bytes.
Variable mac : Cipher -> bytes -> bytes -> bytes -> bytes -> bytes.

Definition init (encrypt : bool) (ctx : Z) (cipher : option Cipher)
           (key iv : option bytes) (w : World) : Response * World :=
  match lookup w ctx with
  | None => (failed, w)
  | Some c =>
      let iv' := option_map (firstn (Z.to_nat (c_ivlen c))) iv in
      (succeeded,
       update w ctx
         (mkContext encrypt (or_keep cipher (c_cipher c)) (c_ivlen c)
            (or_keep key (c_key c)) (or_keep iv' (c_iv c))
            [] [] false (c_tag c)))
  end.

Definition ctrl (ctx : Z) (type : CtrlType) (a : Z) (ptr : option bytes)
           (w : World) : Response * World :=
  match lookup w ctx with
  | None => (failed, w)
  | Some c =>
      match type with
      | EVP_CTRL_GCM_SET_IVLEN =>
          if 0 <? a
          then (succeeded,
                update w ctx
                  (mkContext (c_encrypt c) (c_cipher c) a (c_key c) (c_iv c)
                     (c_aad c) (c_text c) (c_final c) (c_tag c)))
          else (failed, w)
      | EVP_CTRL_GCM_GET_TAG =>
          match c_cipher c, c_key c, c_iv c with
          | Some ci, Some k, Some iv =>
              if c_encrypt c && c_final c && (0 <? a) && (a <=? 16)
              then (mkResponse 1 None
                      (firstn (Z.to_nat a) (mac ci k iv (c_aad c) (c_text c))), w)
              else (failed, w)
          | _, _, _ => (failed, w)
          end
      | EVP_CTRL_GCM_SET_TAG =>
          match ptr with
          | Some t =>
              if negb (c_encrypt c) && (0 <? a) && (a <=? 16)
              then (succeeded,
                    update w ctx
                      (mkContext (c_encrypt c) (c_cipher c) (c_ivlen c) (c_key c)
                         (c_iv c) (c_aad c) (c_text c) (c_final c)
                         (Some (firstn (Z.to_nat a) t))))
              else (failed, w)
          | None => (failed, w)
          end
      end
  end.

Definition update_call (encrypt : bool) (ctx : Z) (out : OutPtr)
           (inp : bytes) (inl : Z) (w : World) : Response * World :=
  match lookup w ctx with
  | None => (failed, w)
  | Some c =>
      match c_cipher c, c_key c, c_iv c with
      | Some ci, Some k, Some iv =>
          if Bool.eqb encrypt (c_encrypt c) && negb (c_final c)
             && (0 <=? inl) && (inl <=? len inp)
          then
            let data := firstn (Z.to_nat inl) inp in
            match out with
            | OutNULL =>
                (mkResponse 1 (Some inl) [],
                 update w ctx
                   (mkContext (c_encrypt c) (c_cipher c) (c_ivlen c) (c_key c)
                      (c_iv c) (c_aad c ++ data) (c_text c) (c_final c) (c_tag c)))
            | OutBuf =>
                let res := crypt ci k iv (length (c_text c)) data in
                (mkResponse 1 (Some inl) res,
                 update w ctx
                   (mkContext (c_encrypt c) (c_cipher c) (c_ivlen c) (c_key c)
                      (c_iv c) (c_aad c)
                      (c_text c ++ (if encrypt then res else data))
                      (c_final c) (c_tag c)))
            end
          else (failed, w)
      | _, _, _ => (failed, w)
      end
  end.

Definition final (encrypt : bool) (ctx : Z) (w : World) : Response * World :=
  (* EVP_DecryptFinal_ex clears [*outl] before anything else *)
  let failed' := if encrypt then failed else mkResponse 0 (Some 0) [] in
  match lookup w ctx with
  | None => (failed', w)
  | Some c =>
      match c_cipher c, c_key c, c_iv c with
      | Some ci, Some k, Some iv =>
          if Bool.eqb encrypt (c_encrypt c) && negb (c_final c)
          then
            let w' := update w ctx
                        (mkContext (c_encrypt c) (c_cipher c) (c_ivlen c) (c_key c)
                           (c_iv c) (c_aad c) (c_text c) true (c_tag c)) in
            if encrypt then (mkResponse 1 (Some 0) [], w')
            else
              match c_tag c with
              | Some t =>
                  if bytes_eqb t
                       (firstn (length t) (mac ci k iv (c_aad c) (c_text c)))
                  then (mkResponse 1 (Some 0) [], w')
                  else (failed', w')
              | None => (failed', w')
              end
          else (failed', w)
      | _, _, _ => (failed', w)
      end
  end.

Definition evp : Handler World := fun call w =>
  match call with
  | EVP_CIPHER_CTX_new =>
      (mkResponse (Zpos (next w)) None [],
       mkWorld (Pos.succ (next w)) ((next w, fresh) :: live w))
  | EVP_EncryptInit_ex ctx cipher key iv => init true ctx cipher key iv w
  | EVP_DecryptInit_ex ctx cipher key iv => init false ctx cipher key iv w
  | EVP_CIPHER_CTX_ctrl ctx type a ptr => ctrl ctx type a ptr w
  | EVP_EncryptUpdate ctx out inp n => update_call true ctx out inp n w
  | EVP_DecryptUpdate ctx out inp n => update_call false ctx out inp n w
  | EVP_EncryptFinal_ex ctx => final true ctx w
  | EVP_DecryptFinal_ex ctx => final false ctx w
  | EVP_CIPHER_CTX_free ctx => (succeeded, release w ctx)
  end.

End Primitive.

End Reference.

(** ** A small instance of the primitive

    A stream cipher that XORs the data with a key-and-IV dependent stream and
    a 16-byte checksum for a tag.  It has no cryptographic strength; it obeys
    the laws the theorems assume about GCM and serves to run the methods on
    concrete inputs. *)

Module Toy.

Definition xor_byte (a b : byte) : byte :=
  let '(a0, (a1, (a2, (a3, (a4, (a5, (a6, a7))))))) := Byte.to_bits a in
  let '(b0, (b1, (b2, (b3, (b4, (b5, (b6, b7))))))) := Byte.to_bits b in
  Byte.of_bits (xorb a0 b0, (xorb a1 b1, (xorb a2 b2, (xorb a3 b3,
               (xorb a4 b4, (xorb a5 b5, (xorb a6 b6, xorb a7 b7))))))).

Definition stream_byte (key iv : bytes) (i : nat) : byte :=
  xor_byte (nth (i mod length key) key x5c) (nth (i mod length iv) iv x36).

Fixpoint crypt_from (key iv : bytes) (off : nat) (data : bytes) : bytes :=
  match data with
  | [] => []
  | b :: data' => xor_byte b (stream_byte key iv off) :: crypt_from key iv (S off) data'
  end.

Definition crypt (_ : Cipher) (key iv : bytes) (off : nat) (data : bytes) : bytes :=
  crypt_from key iv off data.

Definition checksum (l : bytes) : byte := fold_left xor_byte l x00.

Definition mac (_ : Cipher) (key iv aad text : bytes) : bytes :=
  let a := checksum (key ++ iv) in
  let b := checksum aad in
  let c := checksum text in
  [a; b; c; xor_byte a b; xor_byte b c; xor_byte a c; xor_byte a (xor_byte b c);
   checksum (iv ++ text); x00; x01; x02; x03; x04; x05; x06; x07].

Definition evp : Handler Reference.World := Reference.evp crypt mac.

(** A primitive on which every call fails: no context is ever allocated
    and nothing is produced. *)
Definition broken : Handler unit := fun call w =>
  match call with
  | EVP_EncryptUpdate _ _ _ _ | EVP_DecryptUpdate _ _ _ _
  | EVP_EncryptFinal_ex _ | EVP_DecryptFinal_ex _ => (mkResponse 0 (Some 0) [], w)
  | _ => (mkResponse 0 None [], w)
  end.

Definition zeros (n : nat) : bytes := repeat x00 n.

(** "hello" *)
Definition hello : bytes := [x68; x65; x6c; x6c; x6f].

End Toy.

(** ** The state machine of the specification (section 4.2)

    [Uninitialized -> KeyIvBound -> [AADAbsorbed] -> DataProcessed ->
    Finalized], written from the specification's words; the code is compared
    with it below.  A [Session] is what one seal or open call is about: the
    context it owns and the caller's key, IV, associated data (if present),
    primary buffer and, when opening, reference tag.  A transition is taken
    by a call into the primitive and is allowed only when the call is made
    on the session's context, in the session's direction and with the
    caller's data: a buffer goes to the primitive as a pointer to its bytes
    together with its length as the [int] the interface takes.

    Binding is made of four calls, in this order: the context is allocated,
    the cipher variant is selected, the IV length is announced, key and IV
    are handed over; the context stays [Uninitialized] until the last one.
    The transition to [Finalized] is the finalization call; while opening,
    the reference tag has to be installed first ([DataProcessed] records
    whether it was); while sealing, the tag is retrieved afterwards
    ([Finalized] records whether it was).  The context is then destroyed. *)

Inductive Direction : Type := Seal | Open.

Record Session : Type := mkSession {
  s_direction : Direction;
  s_ctx : Z;
  s_key : bytes;
  s_iv : bytes;
  s_aad : option bytes;
  s_data : bytes;
  s_tag : bytes
}.

(** Section 4.1: 16, 24 and 32 bytes select the 128, 192 and 256 bit
    variant; any other length selects none. *)
Definition CipherSelector (key_len : Z) : option Cipher :=
  match key_len with
  | 16 => Some aes_128_gcm
  | 24 => Some aes_192_gcm
  | 32 => Some aes_256_gcm
  | _ => None
  end.

Inductive Binding : Type :=
| NoContext
| ContextAllocated
| CipherSelected
| IvLengthAnnounced.

Inductive AEADState : Type :=
| Uninitialized (progress : Binding)
| KeyIvBound
| AADAbsorbed
| DataProcessed (tag_installed : bool)
| Finalized (tag_retrieved : bool)
| Destroyed.

Definition cipher_eqb (a b : Cipher) : bool :=
  match a, b with
  | aes_128_gcm, aes_128_gcm | aes_192_gcm, aes_192_gcm
  | aes_256_gcm, aes_256_gcm => true
  | _, _ => false
  end.

Definition sealing (s : Session) : bool :=
  match s_direction s with Seal => true | Open => false end.

(** The direction a call belongs to, for the calls that have one. *)
Definition direction_of (c : EVPCall) : option Direction :=
  match c with
  | EVP_EncryptInit_ex _ _ _ _ | EVP_EncryptUpdate _ _ _ _
  | EVP_EncryptFinal_ex _ => Some Seal
  | EVP_DecryptInit_ex _ _ _ _ | EVP_DecryptUpdate _ _ _ _
  | EVP_DecryptFinal_ex _ => Some Open
  | _ => None
  end.

Definition in_direction (s : Session) (c : EVPCall) : bool :=
  match direction_of c, s_direction s with
  | Some Seal, Open | Some Open, Seal => false
  | _, _ => true
  end.

Definition on_session (s : Session) (ctx : Z) : bool := ctx =? s_ctx s.

Definition selects (s : Session) (cipher : Cipher) : bool :=
  match CipherSelector (len (s_key s)) with
  | Some c => cipher_eqb cipher c
  | None => false
  end.

(** The pointer [p] is the pointer to the buffer [b]: [NULL] for a buffer
    without bytes and for no other. *)
Definition points_at (p : option bytes) (b : bytes) : bool :=
  match p, b with
  | None, [] => true
  | Some d, _ :: _ => bytes_eqb d b
  | _, _ => false
  end.

(** An update is fed the buffer [b]: its bytes and its length. *)
Definition feeds (inp : bytes) (inl : Z) (b : bytes) : bool :=
  bytes_eqb inp b && (inl =? to_int (len b)).

Definition guard (b : bool) (s : AEADState) : option AEADState :=
  if b then Some s else None.

(** One transition: the state [st], the call [c] and the primitive's
    answer [r] (it matters for the allocation only, whose answer is the
    context) give the next state, or [None] when the call is not allowed. *)
Definition aead_step (s : Session) (st : AEADState) (c : EVPCall) (r : Response)
  : option AEADState :=
  if negb (in_direction s c) then None
  else
    match st, c with
    | Uninitialized NoContext, EVP_CIPHER_CTX_new =>
        guard (ret r =? s_ctx s) (Uninitialized ContextAllocated)
    | Uninitialized ContextAllocated,
      (EVP_EncryptInit_ex ctx (Some cipher) None None
      | EVP_DecryptInit_ex ctx (Some cipher) None None) =>
        guard (on_session s ctx && selects s cipher) (Uninitialized CipherSelected)
    | Uninitialized CipherSelected,
      EVP_CIPHER_CTX_ctrl ctx EVP_CTRL_GCM_SET_IVLEN a None =>
        guard (on_session s ctx && (a =? to_int (len (s_iv s))))
          (Uninitialized IvLengthAnnounced)
    | Uninitialized IvLengthAnnounced,
      (EVP_EncryptInit_ex ctx None key iv | EVP_DecryptInit_ex ctx None key iv) =>
        guard (on_session s ctx && points_at key (s_key s) && points_at iv (s_iv s))
          KeyIvBound
    | KeyIvBound,
      (EVP_EncryptUpdate ctx OutNULL inp n | EVP_DecryptUpdate ctx OutNULL inp n) =>
        match s_aad s with
        | Some aad => guard (on_session s ctx && feeds inp n aad) AADAbsorbed
        | None => None
        end
    | KeyIvBound,
      (EVP_EncryptUpdate ctx OutBuf inp n | EVP_DecryptUpdate ctx OutBuf inp n) =>
        match s_aad s with
        | Some _ => None
        | None => guard (on_session s ctx && feeds inp n (s_data s))
                    (DataProcessed false)
        end
    | AADAbsorbed,
      (EVP_EncryptUpdate ctx OutBuf inp n | EVP_DecryptUpdate ctx OutBuf inp n) =>
        guard (on_session s ctx && feeds inp n (s_data s)) (DataProcessed false)
    | DataProcessed false, EVP_CIPHER_CTX_ctrl ctx EVP_CTRL_GCM_SET_TAG a tag =>
        guard (negb (sealing s) && on_session s ctx && (a =? 16)
               && points_at tag (s_tag s))
          (DataProcessed true)
    | DataProcessed false, EVP_EncryptFinal_ex ctx =>
        guard (on_session s ctx) (Finalized false)
    | DataProcessed true, EVP_DecryptFinal_ex ctx =>
        guard (on_session s ctx) (Finalized false)
    | Finalized false,
      EVP_CIPHER_CTX_ctrl ctx EVP_CTRL_GCM_GET_TAG a (Some buf) =>
        guard (sealing s && on_session s ctx && (a =? 16) && (len buf =? 16))
          (Finalized true)
    | Finalized tag_retrieved, EVP_CIPHER_CTX_free ctx =>
        guard (on_session s ctx && Bool.eqb tag_retrieved (sealing s)) Destroyed
    | _, _ => None
    end.

(** The states a session is in after each call of a trace; [None] when
    some call is not allowed in the state it is made in. *)
Fixpoint aead_visits (s : Session) (st : AEADState) (t : Trace)
  : option (list AEADState) :=
  match t with
  | [] => Some []
  | (c, r) :: t' =>
      match aead_step s st c r with
      | None => None
      | Some st' =>
          match aead_visits s st' t' with
          | None => None
          | Some l => Some (st' :: l)
          end
      end
  end.

(** The session of a call, from its arguments in the order of section 6:
    key, IV, primary buffer, associated data (present when a buffer is
    given), tag. *)
Definition session_of (d : Direction) (info : list Value) (ctx : Z) : Session :=
  mkSession d ctx (Data (arg info 0)) (Data (arg info 1))
    (if HasInstance (arg info 3) then Some (Data (arg info 3)) else None)
    (Data (arg info 2)) (Data (arg info 4)).


(** ** Predicates used by the statements *)

(** The update that absorbs associated data: the one whose out pointer is
    [NULL]. *)
Definition is_aad_update (c : EVPCall) : bool :=
  match c with
  | EVP_EncryptUpdate _ OutNULL _ _ | EVP_DecryptUpdate _ OutNULL _ _ => true
  | _ => false
  end.

(** The lengths of the host's buffers fit the [int] parameters of the EVP
    interface. *)
Definition buffers_fit_int (info : list Value) : Prop :=
  Forall (fun v => Length v <= INT_MAX) info.

(** A key length the [switch] accepts. *)
Definition valid_key_len (key_len : Z) : Prop :=
  key_len = 16 \/ key_len = 24 \/ key_len = 32.

(** ** Further vocabulary for call sequences *)

(** The context a call is made on; [None] for the allocation. *)
Definition ctx_of (c : EVPCall) : option Z :=
  match c with
  | EVP_CIPHER_CTX_new => None
  | EVP_EncryptInit_ex ctx _ _ _ | EVP_DecryptInit_ex ctx _ _ _
  | EVP_CIPHER_CTX_ctrl ctx _ _ _
  | EVP_EncryptUpdate ctx _ _ _ | EVP_DecryptUpdate ctx _ _ _
  | EVP_EncryptFinal_ex ctx | EVP_DecryptFinal_ex ctx
  | EVP_CIPHER_CTX_free ctx => Some ctx
  end.

Definition is_new (c : EVPCall) : bool :=
  match c with EVP_CIPHER_CTX_new => true | _ => false end.

Definition is_free (c : EVPCall) : bool :=
  match c with EVP_CIPHER_CTX_free _ => true | _ => false end.

(** A primitive that reports what it writes and writes no more than it was
    given: a data update stores, as the output length, the number of bytes
    it wrote, at most the input length; a finalization writes nothing and
    stores 0; the tag query writes at most the length it was asked for. *)
Definition reports_what_it_writes {World : Type} (h : Handler World) : Prop :=
  forall (c : EVPCall) (w : World),
    let r := fst (h c w) in
    match c with
    | EVP_EncryptUpdate _ OutBuf _ n | EVP_DecryptUpdate _ OutBuf _ n =>
        outl_store r = Some (len (out_store r)) /\ len (out_store r) <= Z.max 0 n
    | EVP_EncryptFinal_ex _ | EVP_DecryptFinal_ex _ =>
        outl_store r = Some 0 /\ out_store r = []
    | EVP_CIPHER_CTX_ctrl _ EVP_CTRL_GCM_GET_TAG a _ =>
        len (out_store r) <= Z.max 0 a
    | _ => True
    end.

(** A stateless primitive that copies its input to its output, accepts
    every tag and answers the tag query with bytes of value 255. *)
Definition echo : Handler unit := fun call w =>
  match call with
  | EVP_EncryptUpdate _ OutBuf inp n | EVP_DecryptUpdate _ OutBuf inp n =>
      let res := firstn (Z.to_nat n) inp in
      (mkResponse 1 (Some (len res)) res, w)
  | EVP_EncryptUpdate _ OutNULL _ n | EVP_DecryptUpdate _ OutNULL _ n =>
      (mkResponse 1 (Some n) [], w)
  | EVP_EncryptFinal_ex _ | EVP_DecryptFinal_ex _ => (mkResponse 1 (Some 0) [], w)
  | EVP_CIPHER_CTX_ctrl _ EVP_CTRL_GCM_GET_TAG a _ =>
      (mkResponse 1 None (repeat xff (Z.to_nat a)), w)
  | _ => (mkResponse 1 None [], w)
  end.

(** A primitive on which every call fails the way OpenSSL's calls fail:
    status 0, nothing written, no output length stored. *)
Definition silent : Handler unit := fun _ w => (mkResponse 0 None [], w).

(** ** Further vocabulary for the statements *)

(** The same primitive answering with other status values: [f] replaces
    the return value of every call except the allocation, whose return
    value is the context. *)
Definition with_statuses {World : Type} (f : EVPCall -> Z -> Z) (h : Handler World)
  : Handler World := fun c w =>
  let (r, w') := h c w in
  match c with
  | EVP_CIPHER_CTX_new => (r, w')
  | _ => (mkResponse (f c (ret r)) (outl_store r) (out_store r), w')
  end.

(** A call without its context argument. *)
Definition without_context (c : EVPCall) : EVPCall :=
  match c with
  | EVP_CIPHER_CTX_new => EVP_CIPHER_CTX_new
  | EVP_EncryptInit_ex _ cipher key iv => EVP_EncryptInit_ex 0 cipher key iv
  | EVP_DecryptInit_ex _ cipher key iv => EVP_DecryptInit_ex 0 cipher key iv
  | EVP_CIPHER_CTX_ctrl _ type a ptr => EVP_CIPHER_CTX_ctrl 0 type a ptr
  | EVP_EncryptUpdate _ out inp n => EVP_EncryptUpdate 0 out inp n
  | EVP_DecryptUpdate _ out inp n => EVP_DecryptUpdate 0 out inp n
  | EVP_EncryptFinal_ex _ => EVP_EncryptFinal_ex 0
  | EVP_DecryptFinal_ex _ => EVP_DecryptFinal_ex 0
  | EVP_CIPHER_CTX_free _ => EVP_CIPHER_CTX_free 0
  end.

(** The plaintext of a decrypt outcome, the verdict left aside. *)
Definition plaintext_of (o : Outcome DecryptResult) : Outcome bytes :=
  match o with
  | Throws message => Throws message
  | Returns v => Returns (plaintext v)
  | Fault => Fault
  end.

(** A primitive none of whose calls stores an output length or writes a
    byte. *)
Definition writes_nothing {World : Type} (h : Handler World) : Prop :=
  forall (c : EVPCall) (w : World),
    outl_store (fst (h c w)) = None /\ out_store (fst (h c w)) = [].

(** What the reference primitive makes of the buffers it is handed with
    [int] lengths.  The IV it binds: as many bytes of the IV buffer as were
    announced, 12 when the announcement was refused. *)
Definition bound_iv (iv : bytes) : bytes :=
  firstn (Z.to_nat (if 0 <? to_int (len iv) then to_int (len iv) else 12)) iv.

(** The associated data it absorbs: none when the argument is absent or
    the update is refused for its negative length. *)
Definition absorbed_aad (a : Value) : bytes :=
  if HasInstance a && (0 <=? to_int (Length a))
  then firstn (Z.to_nat (to_int (Length a))) (Data a)
  else [].

(** The largest input length whose round-up still fits [size_t]: 2^64 - 16
    for blocks of 16 and 24 bytes, 2^64 - 32 for blocks of 32. *)
Definition largest_input (block : Z) : Z :=
  if block =? 32 then SIZE_MAX - 31 else SIZE_MAX - 15.

(** * Properties *)

(** ** Integer and memory lemmas *)

Lemma len_nonneg (b : bytes) : 0 <= len b.
Proof. unfold len. lia. Qed.

Lemma bytes_eqb_refl (b : bytes) : bytes_eqb b b = true.
Proof.
  induction b as [|x b IH]; [reflexivity|].
  cbn. now rewrite IH, (Byte.byte_dec_lb (eq_refl x)).
Qed.

Lemma len_app (a b : bytes) : len (a ++ b) = len a + len b.
Proof. unfold len. rewrite length_app. lia. Qed.

Lemma to_int_small (z : Z) : 0 <= z <= INT_MAX -> to_int z = z.
Proof.
  unfold to_int, INT_MAX. intros H.
  rewrite Z.mod_small; lia.
Qed.

Lemma to_int_wraps (n : Z) :
  2 ^ 31 <= n < 2 ^ 32 -> to_int n = n - 2 ^ 32.
Proof.
  intros H. unfold to_int.
  replace (n + 2 ^ 31) with ((n - 2 ^ 31) + 1 * 2 ^ 32) by lia.
  rewrite Z.mod_add by discriminate. rewrite Z.mod_small by lia. lia.
Qed.

Lemma to_size_t_small (z : Z) : 0 <= z <= SIZE_MAX -> to_size_t z = z.
Proof. unfold to_size_t, SIZE_MAX. intros H. apply Z.mod_small. lia. Qed.

Lemma to_uint32_small (z : Z) : 0 <= z < 2 ^ 32 -> to_uint32 z = z.
Proof. unfold to_uint32. intros H. apply Z.mod_small. lia. Qed.

Lemma cipher_type_of_valid (key_len : Z) :
  valid_key_len key_len <-> cipher_type_of key_len <> None.
Proof.
  unfold valid_key_len, cipher_type_of. split.
  - intros [-> | [-> | ->]]; discriminate.
  - destruct (Z.eqb_spec key_len 16); [tauto|].
    destruct (Z.eqb_spec key_len 24); [tauto|].
    destruct (Z.eqb_spec key_len 32); [tauto|].
    intros H; now contradiction H.
Qed.

Lemma cipher_type_of_Some (key_len : Z) (c : Cipher) :
  cipher_type_of key_len = Some c -> valid_key_len key_len.
Proof. intros H. apply cipher_type_of_valid. congruence. Qed.

(** Rounding [n >= 1] up to a multiple of [k] in [size_t] arithmetic does
    not wrap for lengths that fit an [int]. *)
Lemma round_up_size_t (k n : Z) :
  0 < k <= 32 -> 1 <= n <= INT_MAX ->
  size_mul (size_add (size_div (size_sub n 1) k) 1) k = ((n - 1) / k + 1) * k.
Proof.
  unfold size_mul, size_add, size_div, size_sub, INT_MAX. intros Hk Hn.
  assert (H1 : to_size_t (n - 1) = n - 1)
    by (apply to_size_t_small; unfold SIZE_MAX; lia).
  rewrite H1.
  assert (Hq : 0 <= (n - 1) / k <= n - 1).
  { split; [apply Z.div_pos; lia|]. apply Z.div_le_upper_bound; nia. }
  assert (H2 : to_size_t ((n - 1) / k + 1) = (n - 1) / k + 1)
    by (apply to_size_t_small; unfold SIZE_MAX; lia).
  rewrite H2. apply to_size_t_small. unfold SIZE_MAX. nia.
Qed.

Lemma round_up_bounds (k n : Z) :
  0 < k -> n <= ((n - 1) / k + 1) * k < n + k.
Proof.
  intros Hk.
  pose proof (Z.div_mod (n - 1) k ltac:(lia)) as E.
  pose proof (Z.mod_pos_bound (n - 1) k Hk) as B.
  nia.
Qed.

Lemma Encrypt_ciphertext_len_ge (key_len n : Z) :
  valid_key_len key_len -> 0 <= n <= INT_MAX ->
  n <= Encrypt_ciphertext_len key_len n <= n + 32.
Proof.
  intros Hk Hn. destruct (Z.eq_dec n 0) as [-> | Hz].
  - destruct Hk as [-> | [-> | ->]]; vm_compute; split; discriminate.
  - unfold Encrypt_ciphertext_len.
    rewrite round_up_size_t by (unfold valid_key_len in Hk; lia).
    pose proof (round_up_bounds key_len n). unfold valid_key_len in Hk. lia.
Qed.

Lemma Decrypt_plaintext_len_ge (n : Z) :
  0 <= n <= INT_MAX -> n <= Decrypt_plaintext_len n <= n + 32.
Proof.
  intros Hn. destruct (Z.eq_dec n 0) as [-> | Hz].
  - vm_compute; split; discriminate.
  - unfold Decrypt_plaintext_len. rewrite round_up_size_t by lia.
    pose proof (round_up_bounds 16 n). lia.
Qed.

Lemma len_new_uchar (b : byte) (n : Z) : 0 <= n -> len (new_uchar b n) = n.
Proof. intros H. unfold len, new_uchar. rewrite repeat_length. lia. Qed.

Lemma store_at_start (buf bs : bytes) :
  len bs <= len buf ->
  store buf 0 bs = Some (bs ++ skipn (length bs) buf).
Proof.
  intros H. unfold store.
  replace (0 + len bs <=? len buf) with true by (symmetry; apply Z.leb_le; lia).
  reflexivity.
Qed.

Lemma store_nothing (buf : bytes) (off : Z) :
  0 <= off <= len buf -> store buf off [] = Some buf.
Proof.
  intros H. unfold store. change (len []) with 0.
  replace (0 <=? off) with true by (symmetry; apply Z.leb_le; lia).
  replace (off + 0 <=? len buf) with true by (symmetry; apply Z.leb_le; lia).
  cbn [andb app length]. rewrite Nat.add_0_r, firstn_skipn. reflexivity.
Qed.

Lemma CopyBuffer_prefix (bs rest : bytes) :
  CopyBuffer (bs ++ rest) (len bs) = Some bs.
Proof.
  unfold CopyBuffer.
  replace (len bs <=? len (bs ++ rest)) with true
    by (symmetry; apply Z.leb_le; rewrite len_app; pose proof (len_nonneg rest); lia).
  unfold len. rewrite Nat2Z.id, firstn_app, firstn_all, Nat.sub_diag.
  cbn [firstn]. now rewrite app_nil_r.
Qed.

Lemma CopyBuffer_length (buf res : bytes) (n : Z) :
  0 <= n -> CopyBuffer buf n = Some res -> len res = n.
Proof.
  unfold CopyBuffer. intros Hn. destruct (n <=? len buf) eqn:H; [|discriminate].
  intros [= <-]. apply Z.leb_le in H. unfold len in *.
  rewrite length_firstn. lia.
Qed.

(** ** Argument validation *)

Lemma messages_differ :
  Decrypt_arguments_message <> key_length_message
  /\ Encrypt_arguments_message <> key_length_message.
Proof. split; discriminate. Qed.

Lemma invalid_key_len_None (key_len : Z) :
  ~ valid_key_len key_len -> cipher_type_of key_len = None.
Proof.
  intros H. destruct (cipher_type_of key_len) eqn:E; [|reflexivity].
  contradiction H. eapply cipher_type_of_Some; eauto.
Qed.

Lemma bad_tag_length_is_bad_arguments (info : list Value) :
  Length (arg info 4) <> AUTH_TAG_LEN -> Decrypt_bad_arguments info = true.
Proof.
  intros H. unfold Decrypt_bad_arguments.
  apply Z.eqb_neq in H. rewrite H. cbn [negb]. apply orb_true_r.
Qed.

(** C5.  A decrypt call whose tag argument is not exactly 16 bytes long
    throws the argument error; the method is then a bare return, so whatever
    the primitive is, no call reaches it, its state is untouched and no
    result object is produced. *)
Theorem Decrypt_rejects_tag_length :
  forall (uninit_byte : byte) (uninit_int : Z) (info : list Value),
    Length (arg info 4) <> AUTH_TAG_LEN ->
    Decrypt uninit_byte uninit_int info = Ret (Throws Decrypt_arguments_message)
    /\ forall (World : Type) (h : Handler World) (w : World),
         run h (Decrypt uninit_byte uninit_int info) w
         = (Throws Decrypt_arguments_message, w, []).
Proof.
  intros ub ui info H.
  assert (E : Decrypt ub ui info = Ret (Throws Decrypt_arguments_message)).
  { unfold Decrypt. now rewrite bad_tag_length_is_bad_arguments. }
  split; [exact E|]. intros World h w. now rewrite E.
Qed.

Lemma Decrypt_rejects_tag_length_witness :
  let info := [Buffer (Toy.zeros 16); Buffer (Toy.zeros 12); Buffer Toy.hello;
               Null; Buffer (Toy.zeros 12)] in
  Length (arg info 4) <> AUTH_TAG_LEN
  /\ Decrypt x00 0 info = Ret (Throws Decrypt_arguments_message).
Proof.
  intros info. assert (H : Length (arg info 4) <> AUTH_TAG_LEN) by discriminate.
  split; [exact H|]. exact (proj1 (Decrypt_rejects_tag_length x00 0 info H)).
Defined.

(** C10.  In decrypt the argument check, which includes the tag length, comes
    before the key-length switch: a call with an invalid key length and a tag
    that is not 16 bytes long reports the argument error, which is not the
    key-length error. *)
Theorem Decrypt_argument_check_precedes_key_check :
  forall (uninit_byte : byte) (uninit_int : Z) (info : list Value)
         (World : Type) (h : Handler World) (w : World),
    ~ valid_key_len (Length (arg info 0)) ->
    Length (arg info 4) <> AUTH_TAG_LEN ->
    run h (Decrypt uninit_byte uninit_int info) w
    = (Throws Decrypt_arguments_message, w, [])
    /\ Decrypt_arguments_message <> key_length_message.
Proof.
  intros ub ui info World h w _ Htag. split; [|apply messages_differ].
  unfold Decrypt. now rewrite bad_tag_length_is_bad_arguments.
Qed.

Lemma Decrypt_argument_check_precedes_key_check_witness :
  let info := [Buffer (Toy.zeros 15); Buffer (Toy.zeros 12); Buffer Toy.hello;
               Null; Buffer (Toy.zeros 20)] in
  ~ valid_key_len (Length (arg info 0))
  /\ Length (arg info 4) <> AUTH_TAG_LEN
  /\ run Toy.evp (Decrypt x00 0 info) Reference.initial
     = (Throws Decrypt_arguments_message, Reference.initial, []).
Proof.
  intros info.
  assert (Hk : ~ valid_key_len (Length (arg info 0)))
    by (intros [H | [H | H]]; discriminate H).
  assert (Ht : Length (arg info 4) <> AUTH_TAG_LEN) by discriminate.
  split; [exact Hk|]. split; [exact Ht|].
  exact (proj1 (Decrypt_argument_check_precedes_key_check
                  x00 0 info _ Toy.evp Reference.initial Hk Ht)).
Defined.

(** C4, as stated, fails: with a 15-byte key and a 12-byte tag decrypt
    reports the argument error, not the key-length error. *)
Lemma invalid_key_length_counterexample :
  let info := [Buffer (Toy.zeros 15); Buffer (Toy.zeros 12); Buffer Toy.hello;
               Null; Buffer (Toy.zeros 12)] in
  ~ valid_key_len (Length (arg info 0))
  /\ outcome_of (run Toy.evp (Decrypt x00 0 info) Reference.initial)
     = Throws Decrypt_arguments_message
  /\ outcome_of (run Toy.evp (Decrypt x00 0 info) Reference.initial)
     <> Throws key_length_message.
Proof.
  intros info. split; [intros [H | [H | H]]; discriminate H|].
  split; [reflexivity|]. intros H. vm_compute in H. discriminate H.
Qed.

(** C4, amended.  When the arguments pass the method's argument check (for
    decrypt this includes a 16-byte tag) and the key length is none of 16, 24
    and 32, encrypt and decrypt throw the key-length error; no call reaches
    the primitive, its state is unchanged and no result is produced. *)
Theorem invalid_key_length_rejected :
  forall (uninit_byte : byte) (uninit_int : Z) (info : list Value)
         (World : Type) (h : Handler World) (w : World),
    ~ valid_key_len (Length (arg info 0)) ->
    (Encrypt_bad_arguments info = false ->
     run h (Encrypt uninit_byte uninit_int info) w = (Throws key_length_message, w, []))
    /\ (Decrypt_bad_arguments info = false ->
        run h (Decrypt uninit_byte uninit_int info) w = (Throws key_length_message, w, [])).
Proof.
  intros ub ui info World h w Hk. apply invalid_key_len_None in Hk.
  split; intros Ha.
  - unfold Encrypt. now rewrite Ha, Hk.
  - unfold Decrypt. now rewrite Ha, Hk.
Qed.

Lemma invalid_key_length_rejected_witness :
  let info := [Buffer (Toy.zeros 20); Buffer (Toy.zeros 12); Buffer Toy.hello;
               Null; Buffer (Toy.zeros 16)] in
  ~ valid_key_len (Length (arg info 0))
  /\ Encrypt_bad_arguments info = false
  /\ Decrypt_bad_arguments info = false
  /\ run Toy.evp (Encrypt x00 0 info) Reference.initial
     = (Throws key_length_message, Reference.initial, [])
  /\ run Toy.evp (Decrypt x00 0 info) Reference.initial
     = (Throws key_length_message, Reference.initial, []).
Proof.
  intros info.
  assert (Hk : ~ valid_key_len (Length (arg info 0)))
    by (intros [H | [H | H]]; discriminate H).
  pose proof (invalid_key_length_rejected x00 0 info _ Toy.evp Reference.initial Hk)
    as [He Hd].
  split; [exact Hk|]. split; [reflexivity|]. split; [reflexivity|].
  split; [apply He; reflexivity | apply Hd; reflexivity].
Defined.

(** ** Symbolic execution against an arbitrary primitive *)

Ltac exec_step h :=
  match goal with
  | |- context [h ?c ?w] =>
      let r := fresh "r" in
      let w' := fresh "w" in
      let E := fresh "Ecall" in
      destruct (h c w) as [r w'] eqn:E
  | |- context [match store ?b ?o ?bs with _ => _ end] =>
      let m := fresh "mem" in
      let E := fresh "Estore" in
      destruct (store b o bs) as [m|] eqn:E
  | |- context [match CopyBuffer ?b ?n with _ => _ end] =>
      let m := fresh "buf" in
      let E := fresh "Ecopy" in
      destruct (CopyBuffer b n) as [m|] eqn:E
  end;
  cbn [run bind call outcome_of world_of trace_of calls_of fst snd map].

Ltac exec h :=
  cbn [run bind call outcome_of world_of trace_of calls_of fst snd map];
  repeat exec_step h.

Lemma absent_has_no_instance (v : Value) :
  IsUndefined v || IsNull v = true -> HasInstance v = false.
Proof. destruct v; auto. Qed.

(** C9.  A null or undefined associated-data argument makes no
    associated-data update at all, in encrypt and in decrypt; a zero-length
    buffer makes one, with zero bytes, as the fifth call of the method.  This
    holds whatever the primitive answers. *)
Theorem associated_data_null_versus_empty :
  forall (uninit_byte : byte) (uninit_int : Z) (World : Type)
         (h : Handler World) (w : World) (info : list Value),
    (IsUndefined (arg info 3) || IsNull (arg info 3) = true ->
     existsb is_aad_update (calls_of (run h (Encrypt uninit_byte uninit_int info) w))
     = false
     /\ existsb is_aad_update (calls_of (run h (Decrypt uninit_byte uninit_int info) w))
        = false)
    /\ (arg info 3 = Buffer [] ->
        valid_key_len (Length (arg info 0)) ->
        (Encrypt_bad_arguments info = false ->
         exists ctx,
           nth_error (calls_of (run h (Encrypt uninit_byte uninit_int info) w)) 4
           = Some (EVP_EncryptUpdate ctx OutNULL [] 0))
        /\ (Decrypt_bad_arguments info = false ->
            exists ctx,
              nth_error (calls_of (run h (Decrypt uninit_byte uninit_int info) w)) 4
              = Some (EVP_DecryptUpdate ctx OutNULL [] 0))).
Proof.
  intros ub ui World h w info. split.
  - intros Habs. apply absent_has_no_instance in Habs. split.
    + unfold Encrypt. destruct (Encrypt_bad_arguments info); [reflexivity|].
      destruct (cipher_type_of _); [|reflexivity].
      rewrite Habs. exec h; reflexivity.
    + unfold Decrypt. destruct (Decrypt_bad_arguments info); [reflexivity|].
      destruct (cipher_type_of _); [|reflexivity].
      rewrite Habs. exec h; reflexivity.
  - intros Hempty Hk. apply cipher_type_of_valid in Hk.
    destruct (cipher_type_of _) as [c|] eqn:Ec; [clear Hk | now contradiction Hk].
    split; intros Hargs.
    + unfold Encrypt. rewrite Hargs, Ec, Hempty. cbn [HasInstance Data Length].
      exec h; eexists; reflexivity.
    + unfold Decrypt. rewrite Hargs, Ec, Hempty. cbn [HasInstance Data Length].
      exec h; eexists; reflexivity.
Qed.

Lemma associated_data_null_versus_empty_witness :
  let absent := [Buffer (Toy.zeros 16); Buffer (Toy.zeros 12); Buffer Toy.hello;
                 Null; Buffer (Toy.zeros 16)] in
  let empty := [Buffer (Toy.zeros 16); Buffer (Toy.zeros 12); Buffer Toy.hello;
                Buffer []; Buffer (Toy.zeros 16)] in
  (existsb is_aad_update (calls_of (run Toy.evp (Encrypt x00 0 absent) Reference.initial))
   = false
   /\ existsb is_aad_update (calls_of (run Toy.evp (Decrypt x00 0 absent) Reference.initial))
      = false)
  /\ (exists ctx,
        nth_error (calls_of (run Toy.evp (Encrypt x00 0 empty) Reference.initial)) 4
        = Some (EVP_EncryptUpdate ctx OutNULL [] 0))
  /\ (exists ctx,
        nth_error (calls_of (run Toy.evp (Decrypt x00 0 empty) Reference.initial)) 4
        = Some (EVP_DecryptUpdate ctx OutNULL [] 0)).
Proof.
  intros absent empty.
  pose proof (associated_data_null_versus_empty x00 0 _ Toy.evp Reference.initial absent)
    as [Ha _].
  pose proof (associated_data_null_versus_empty x00 0 _ Toy.evp Reference.initial empty)
    as [_ He].
  split; [apply Ha; reflexivity|].
  destruct (He eq_refl (or_introl eq_refl)) as [He1 He2].
  split; [apply He1; reflexivity | apply He2; reflexivity].
Defined.

(** ** The call sequence and the state machine *)







Ltac find_in := cbn [In]; repeat first [left; reflexivity | right].



(** The machine is strict.  It refuses the calls of a seal session when
    they are made on another context than the allocated one, when the key
    handed over is not the caller's, when the data update comes before the
    absorption of the associated data that is present, and when a call of
    the other direction is made. *)
Example machine_refuses :
  let info := [Buffer (Toy.zeros 16); Buffer (Toy.zeros 12); Buffer Toy.hello;
               Buffer [x61]] in
  let s := session_of Seal info 1 in
  let ok := mkResponse 1 None [] in
  let new := (EVP_CIPHER_CTX_new, ok) in
  let select := (EVP_EncryptInit_ex 1 (Some aes_128_gcm) None None, ok) in
  let announce := (EVP_CIPHER_CTX_ctrl 1 EVP_CTRL_GCM_SET_IVLEN 12 None, ok) in
  let bind := (EVP_EncryptInit_ex 1 None (Some (Toy.zeros 16)) (Some (Toy.zeros 12)),
               ok) in
  aead_visits s (Uninitialized NoContext) [new; select; announce; bind]
  = Some [Uninitialized ContextAllocated; Uninitialized CipherSelected;
          Uninitialized IvLengthAnnounced; KeyIvBound]
  /\ aead_visits s (Uninitialized NoContext)
       [new; (EVP_EncryptInit_ex 0 (Some aes_128_gcm) None None, ok)] = None
  /\ aead_visits s (Uninitialized NoContext)
       [new; (EVP_EncryptInit_ex 1 (Some aes_256_gcm) None None, ok)] = None
  /\ aead_visits s (Uninitialized NoContext)
       [new; select; announce;
        (EVP_EncryptInit_ex 1 None None (Some (Toy.zeros 12)), ok)] = None
  /\ aead_visits s (Uninitialized NoContext)
       [new; select; announce; bind;
        (EVP_EncryptUpdate 1 OutBuf Toy.hello 5, ok)] = None
  /\ aead_visits s (Uninitialized NoContext)
       [new; select; announce; bind;
        (EVP_EncryptUpdate 1 OutNULL [] 0, ok)] = None
  /\ aead_visits s (Uninitialized NoContext)
       [new; select; announce; bind;
        (EVP_DecryptUpdate 1 OutNULL [x61] 1, ok)] = None
  /\ aead_visits s (Uninitialized NoContext) [new; select; bind] = None.
Proof. repeat split. Qed.

(** ** Failures of the primitive *)

(** C8, as stated, fails: on a primitive whose every call fails (no context
    is allocated, every status is 0) encrypt still returns a result object. *)
Lemma primitive_failure_counterexample :
  let info := [Buffer (Toy.zeros 16); Buffer (Toy.zeros 12); Buffer Toy.hello; Null] in
  let e := run Toy.broken (Encrypt x00 0 info) tt in
  length (trace_of e) = 8%nat
  /\ Forall (fun cr => ret (snd cr) = 0) (trace_of e)
  /\ outcome_of e = Returns (mkEncryptResult [] (Toy.zeros 16))
  /\ forall message, outcome_of e <> Throws message.
Proof.
  intros info e. split; [reflexivity|]. split.
  - repeat constructor.
  - split; [reflexivity|]. intros message H. vm_compute in H. discriminate H.
Qed.

(** Run both sides of a comparison between a primitive and the same
    primitive with other statuses. *)
Ltac exec_both h :=
  unfold with_statuses, stored;
  cbn [run bind call outcome_of world_of trace_of calls_of fst snd map
       ret outl_store out_store];
  repeat (exec_step h;
          cbn [run bind call outcome_of world_of trace_of calls_of fst snd map
               ret outl_store out_store]).

(** C8, amended.  No failure of the primitive becomes an error.  Encrypt
    and decrypt throw only from their argument and key-length checks,
    before the first call into the primitive.  After that no return value
    is tested.  The statuses: on the same primitive answering with other
    status values the method makes the same calls, leaves the primitive in
    the same state and ends with the same outcome, except that [auth_ok] of
    a result that decrypt returns is the status of the decrypt
    finalization, true exactly when it is not zero.  The pointer returned
    by the allocation: every later call is made on it, and two calls that
    return a result have made the same calls with the same arguments, the
    context apart, whatever the two primitives answered, a [NULL] context
    included. *)
Theorem primitive_failures_are_not_reported :
  forall (uninit_byte : byte) (uninit_int : Z) (World : Type)
         (h : Handler World) (w : World) (info : list Value),
    let e := run h (Encrypt uninit_byte uninit_int info) w in
    let d := run h (Decrypt uninit_byte uninit_int info) w in
    (forall message, outcome_of e = Throws message -> trace_of e = [])
    /\ (forall message, outcome_of d = Throws message -> trace_of d = [])
    /\ (forall f : EVPCall -> Z -> Z,
           let e' := run (with_statuses f h) (Encrypt uninit_byte uninit_int info) w in
           outcome_of e' = outcome_of e
           /\ calls_of e' = calls_of e
           /\ world_of e' = world_of e)
    /\ (forall f : EVPCall -> Z -> Z,
           let d' := run (with_statuses f h) (Decrypt uninit_byte uninit_int info) w in
           plaintext_of (outcome_of d') = plaintext_of (outcome_of d)
           /\ calls_of d' = calls_of d
           /\ world_of d' = world_of d)
    /\ (forall v, outcome_of d = Returns v ->
           exists ctx r,
             In (EVP_DecryptFinal_ex ctx, r) (trace_of d)
             /\ auth_ok v = negb (ret r =? 0))
    /\ (forall r0 rest,
           trace_of e = (EVP_CIPHER_CTX_new, r0) :: rest ->
           Forall (fun cr => ctx_of (fst cr) = Some (ret r0)) rest)
    /\ (forall r0 rest,
           trace_of d = (EVP_CIPHER_CTX_new, r0) :: rest ->
           Forall (fun cr => ctx_of (fst cr) = Some (ret r0)) rest)
    /\ (forall (World' : Type) (h' : Handler World') (w' : World') v v',
           outcome_of e = Returns v ->
           outcome_of (run h' (Encrypt uninit_byte uninit_int info) w') = Returns v' ->
           map without_context (calls_of e)
           = map without_context
               (calls_of (run h' (Encrypt uninit_byte uninit_int info) w')))
    /\ (forall (World' : Type) (h' : Handler World') (w' : World') v v',
           outcome_of d = Returns v ->
           outcome_of (run h' (Decrypt uninit_byte uninit_int info) w') = Returns v' ->
           map without_context (calls_of d)
           = map without_context
               (calls_of (run h' (Decrypt uninit_byte uninit_int info) w'))).
Proof.
  intros ub ui World h w info e d. subst e d. repeat apply conj.
  - intros message. unfold Encrypt.
    destruct (Encrypt_bad_arguments info); [reflexivity|].
    destruct (cipher_type_of _); [|reflexivity].
    destruct (HasInstance (arg info 3)); exec h; discriminate.
  - intros message. unfold Decrypt.
    destruct (Decrypt_bad_arguments info); [reflexivity|].
    destruct (cipher_type_of _); [|reflexivity].
    destruct (HasInstance (arg info 3)); exec h; discriminate.
  - intros f e'. subst e'. unfold Encrypt.
    destruct (Encrypt_bad_arguments info); [now repeat split|].
    destruct (cipher_type_of _); [|now repeat split].
    destruct (HasInstance (arg info 3)); exec_both h; now repeat split.
  - intros f d'. subst d'. unfold Decrypt.
    destruct (Decrypt_bad_arguments info); [now repeat split|].
    destruct (cipher_type_of _); [|now repeat split].
    destruct (HasInstance (arg info 3)); exec_both h; now repeat split.
  - intros v. unfold Decrypt.
    destruct (Decrypt_bad_arguments info); [discriminate|].
    destruct (cipher_type_of _); [|discriminate].
    destruct (HasInstance (arg info 3)); exec h;
      solve [discriminate
            | intros [= <-]; eexists _, _; split; [find_in | reflexivity]].
  - intros r0 rest. unfold Encrypt.
    destruct (Encrypt_bad_arguments info); [discriminate|].
    destruct (cipher_type_of _); [|discriminate].
    destruct (HasInstance (arg info 3)); exec h;
      intros [= <- <-]; repeat constructor.
  - intros r0 rest. unfold Decrypt.
    destruct (Decrypt_bad_arguments info); [discriminate|].
    destruct (cipher_type_of _); [|discriminate].
    destruct (HasInstance (arg info 3)); exec h;
      intros [= <- <-]; repeat constructor.
  - intros World' h' w' v v'. unfold Encrypt.
    destruct (Encrypt_bad_arguments info); [discriminate|].
    destruct (cipher_type_of _); [|discriminate].
    destruct (HasInstance (arg info 3)); exec h; try discriminate;
      intros _; exec h'; try discriminate; reflexivity.
  - intros World' h' w' v v'. unfold Decrypt.
    destruct (Decrypt_bad_arguments info); [discriminate|].
    destruct (cipher_type_of _); [|discriminate].
    destruct (HasInstance (arg info 3)); exec h; try discriminate;
      intros _; exec h'; try discriminate; reflexivity.
Qed.

Lemma primitive_failures_are_not_reported_witness :
  let bad := [Buffer (Toy.zeros 15); Buffer (Toy.zeros 12); Buffer Toy.hello;
              Null; Buffer (Toy.zeros 16)] in
  let good := [Buffer (Toy.zeros 16); Buffer (Toy.zeros 12); Buffer Toy.hello;
               Null; Buffer (Toy.zeros 16)] in
  let all_fail := fun (_ : EVPCall) (_ : Z) => 0 in
  trace_of (run Toy.broken (Encrypt x00 0 bad) tt) = []
  /\ trace_of (run Toy.broken (Decrypt x00 0 bad) tt) = []
  /\ outcome_of (run (with_statuses all_fail Toy.evp) (Encrypt x00 0 good)
                   Reference.initial)
     = outcome_of (run Toy.evp (Encrypt x00 0 good) Reference.initial)
  /\ (exists ctx r,
         In (EVP_DecryptFinal_ex ctx, r) (trace_of (run Toy.broken (Decrypt x00 0 good) tt))
         /\ false = negb (ret r =? 0))
  /\ map without_context (calls_of (run Toy.evp (Encrypt x00 0 good) Reference.initial))
     = map without_context (calls_of (run Toy.broken (Encrypt x00 0 good) tt)).
Proof.
  intros bad good all_fail.
  pose proof (primitive_failures_are_not_reported x00 0 _ Toy.broken tt bad)
    as (He & Hd & _).
  pose proof (primitive_failures_are_not_reported x00 0 _ Toy.broken tt good)
    as (_ & _ & _ & _ & Hv & _).
  pose proof (primitive_failures_are_not_reported x00 0 _ Toy.evp Reference.initial good)
    as (_ & _ & Hs & _ & _ & _ & _ & Hshape & _).
  split; [eapply He; reflexivity|]. split; [eapply Hd; reflexivity|].
  split; [exact (proj1 (Hs all_fail))|].
  split; [exact (Hv (mkDecryptResult [] false) eq_refl)|].
  eapply (Hshape unit Toy.broken tt); reflexivity.
Defined.

(** ** Buffer sizes and reported lengths *)

(** C3, as stated, fails.  For a zero-length input the subtraction
    [plaintext_len - 1] wraps around to [SIZE_MAX]; for a five-byte input the
    computed size is not five but 16, 24 or 32 in encrypt, by the key length,
    and 16 in decrypt.  At the far end of [size_t], from 2^64 - 15 bytes on
    (2^64 - 31 under a 32-byte key), the round-up no longer fits and the
    computed size falls below the input length. *)
Lemma output_size_counterexample :
  size_sub_underflows 0 1 = true
  /\ size_sub 0 1 = SIZE_MAX
  /\ Encrypt_ciphertext_len 16 5 = 16
  /\ Encrypt_ciphertext_len 24 5 = 24
  /\ Encrypt_ciphertext_len 32 5 = 32
  /\ Decrypt_plaintext_len 5 = 16
  /\ Encrypt_ciphertext_len 16 (SIZE_MAX - 14) = 0
  /\ Encrypt_ciphertext_len 24 (SIZE_MAX - 14) = 8
  /\ Encrypt_ciphertext_len 32 (SIZE_MAX - 30) = 0
  /\ Decrypt_plaintext_len (SIZE_MAX - 14) = 0.
Proof. repeat split. Qed.

Lemma copied_length (mem buf : bytes) (n : Z) :
  CopyBuffer mem (to_uint32 n) = Some buf -> len buf = to_uint32 n.
Proof.
  apply CopyBuffer_length. unfold to_uint32.
  apply Z.mod_pos_bound. reflexivity.
Qed.

Lemma reported_total (o1 o2 : Z) :
  0 <= o1 -> 0 <= o2 -> o1 + o2 < 2 ^ 32 ->
  to_uint32 (size_add (to_size_t o1) o2) = o1 + o2.
Proof.
  intros H1 H2 H. unfold size_add.
  rewrite (to_size_t_small o1) by (unfold SIZE_MAX; lia).
  rewrite to_size_t_small by (unfold SIZE_MAX; lia).
  apply to_uint32_small. lia.
Qed.

Lemma stored_Some (outl v : Z) (r : Response) :
  outl_store r = Some v -> stored outl r = v.
Proof. unfold stored. now intros ->. Qed.

(** Rounding [n >= 1] up to a multiple of [k] does not wrap either as
    long as [n] is not beyond a multiple [m] of [k] that fits [size_t]. *)
Lemma round_up_size_t_wide (k n m : Z) :
  0 < k -> 1 <= n <= m -> m mod k = 0 -> m <= SIZE_MAX ->
  size_mul (size_add (size_div (size_sub n 1) k) 1) k = ((n - 1) / k + 1) * k.
Proof.
  unfold size_mul, size_add, size_div, size_sub, SIZE_MAX. intros Hk Hn Hm Hmax.
  assert (H1 : to_size_t (n - 1) = n - 1)
    by (apply to_size_t_small; unfold SIZE_MAX; lia).
  rewrite H1.
  assert (Hq : 0 <= (n - 1) / k <= n - 1).
  { split; [apply Z.div_pos; lia|]. apply Z.div_le_upper_bound; nia. }
  assert (H2 : to_size_t ((n - 1) / k + 1) = (n - 1) / k + 1)
    by (apply to_size_t_small; unfold SIZE_MAX; lia).
  rewrite H2. apply to_size_t_small. unfold SIZE_MAX.
  pose proof (Z.div_mod m k ltac:(lia)) as Em. rewrite Hm, Z.add_0_r in Em.
  assert (Hlt : (n - 1) / k < m / k)
    by (apply Z.div_lt_upper_bound; lia).
  nia.
Qed.

Lemma largest_input_fits (block : Z) :
  valid_key_len block ->
  largest_input block mod block = 0 /\ largest_input block <= SIZE_MAX.
Proof. intros [-> | [-> | ->]]; split; vm_compute; congruence. Qed.

(** C3, amended.  For every input length from 0 to 2^64 - 16 (2^64 - 32
    in encrypt under a 32-byte key), the zero-length buffer included, the
    computed size of the output buffer is at least the input length, in
    encrypt (for each of the three key lengths) and in decrypt.  For a
    non-empty input the subtraction does not wrap, and the size in decrypt,
    and in encrypt under a 16-byte key, is the input length rounded up to
    the next multiple of 16.  The length of the returned buffer is the sum
    of the lengths the primitive stored for the update and for the
    finalization, as carried through [size_t] and [uint32_t]; it is exactly
    that sum when both are non-negative and the sum is below 2^32. *)
Theorem output_size_and_reported_length :
  (forall key_len n : Z,
      valid_key_len key_len -> 0 <= n <= largest_input key_len ->
      n <= Encrypt_ciphertext_len key_len n)
  /\ (forall n : Z,
         0 <= n <= largest_input 16 ->
         n <= Decrypt_plaintext_len n
         /\ (1 <= n ->
             size_sub_underflows n 1 = false
             /\ Decrypt_plaintext_len n = ((n - 1) / 16 + 1) * 16
             /\ Decrypt_plaintext_len n < n + 16
             /\ Encrypt_ciphertext_len 16 n = ((n - 1) / 16 + 1) * 16))
  /\ (forall (uninit_byte : byte) (uninit_int : Z) (World : Type)
             (h : Handler World) (w : World) (info : list Value) v,
         outcome_of (run h (Encrypt uninit_byte uninit_int info) w) = Returns v ->
         exists ctx inp n r1 ctx' r2,
           In (EVP_EncryptUpdate ctx OutBuf inp n, r1)
              (trace_of (run h (Encrypt uninit_byte uninit_int info) w))
           /\ In (EVP_EncryptFinal_ex ctx', r2)
                 (trace_of (run h (Encrypt uninit_byte uninit_int info) w))
           /\ forall o1 o2,
                outl_store r1 = Some o1 -> outl_store r2 = Some o2 ->
                len (ciphertext v) = to_uint32 (size_add (to_size_t o1) o2)
                /\ (0 <= o1 -> 0 <= o2 -> o1 + o2 < 2 ^ 32 ->
                    len (ciphertext v) = o1 + o2))
  /\ (forall (uninit_byte : byte) (uninit_int : Z) (World : Type)
             (h : Handler World) (w : World) (info : list Value) v,
         outcome_of (run h (Decrypt uninit_byte uninit_int info) w) = Returns v ->
         exists ctx inp n r1 ctx' r2,
           In (EVP_DecryptUpdate ctx OutBuf inp n, r1)
              (trace_of (run h (Decrypt uninit_byte uninit_int info) w))
           /\ In (EVP_DecryptFinal_ex ctx', r2)
                 (trace_of (run h (Decrypt uninit_byte uninit_int info) w))
           /\ forall o1 o2,
                outl_store r1 = Some o1 -> outl_store r2 = Some o2 ->
                len (plaintext v) = to_uint32 (size_add (to_size_t o1) o2)
                /\ (0 <= o1 -> 0 <= o2 -> o1 + o2 < 2 ^ 32 ->
                    len (plaintext v) = o1 + o2)).
Proof.
  repeat apply conj.
  - intros key_len n Hk Hn.
    assert (Hk' : 0 < key_len) by (unfold valid_key_len in Hk; lia).
    destruct (largest_input_fits key_len Hk) as [Hm Hmax].
    destruct (Z.eq_dec n 0) as [-> | Hz].
    + destruct Hk as [-> | [-> | ->]]; vm_compute; discriminate.
    + unfold Encrypt_ciphertext_len.
      rewrite (round_up_size_t_wide key_len n (largest_input key_len))
        by (assumption || lia).
      pose proof (round_up_bounds key_len n). lia.
  - intros n Hn.
    destruct (largest_input_fits 16 (or_introl eq_refl)) as [Hm Hmax].
    destruct (Z.eq_dec n 0) as [-> | Hz].
    + split; [vm_compute; discriminate | lia].
    + unfold Encrypt_ciphertext_len, Decrypt_plaintext_len.
      rewrite !(round_up_size_t_wide 16 n (largest_input 16))
        by (assumption || lia).
      pose proof (round_up_bounds 16 n).
      split; [lia|]. intros _.
      split; [|split; [reflexivity | split; [lia | reflexivity]]].
      unfold size_sub_underflows, size_sub.
      rewrite to_size_t_small by (unfold SIZE_MAX in *; lia).
      now rewrite Z.eqb_refl.
  - intros ub ui World h w info v. unfold Encrypt.
    destruct (Encrypt_bad_arguments info); [discriminate|].
    destruct (cipher_type_of _); [|discriminate].
    destruct (HasInstance (arg info 3)); exec h; try discriminate;
      intros [= <-]; eexists _, _, _, _, _, _;
      (split; [find_in|]); (split; [find_in|]);
      intros o1 o2 E1 E2; cbn [ciphertext];
      apply copied_length in Ecopy;
      rewrite (stored_Some _ o2 _ E2), (stored_Some _ o1 _ E1) in Ecopy;
      (split; [exact Ecopy|]); intros; rewrite Ecopy; now apply reported_total.
  - intros ub ui World h w info v. unfold Decrypt.
    destruct (Decrypt_bad_arguments info); [discriminate|].
    destruct (cipher_type_of _); [|discriminate].
    destruct (HasInstance (arg info 3)); exec h; try discriminate;
      intros [= <-]; eexists _, _, _, _, _, _;
      (split; [find_in|]); (split; [find_in|]);
      intros o1 o2 E1 E2; cbn [plaintext];
      apply copied_length in Ecopy;
      rewrite (stored_Some _ o2 _ E2), (stored_Some _ o1 _ E1) in Ecopy;
      (split; [exact Ecopy|]); intros; rewrite Ecopy; now apply reported_total.
Qed.

(** ** Runs against the reference primitive *)

Module ReferenceRuns.

Import Reference.

Lemma lookup_new (w : World) (c : Context) :
  lookup (mkWorld (Pos.succ (next w)) ((next w, c) :: live w)) (Zpos (next w))
  = Some c.
Proof. cbn. now rewrite Pos.eqb_refl. Qed.

Lemma lookup_update (w : World) (ctx : Z) (c0 c : Context) :
  lookup w ctx = Some c0 -> lookup (update w ctx c) ctx = Some c.
Proof.
  destruct ctx as [|p|p]; cbn; try discriminate.
  intros _. now rewrite Pos.eqb_refl.
Qed.

Lemma firstn_len (b : bytes) : firstn (Z.to_nat (len b)) b = b.
Proof. unfold len. rewrite Nat2Z.id. apply firstn_all. Qed.

Section Steps.

Variable crypt : Cipher -> bytes -> bytes -> nat -> bytes -> bytes.
Variable mac : Cipher -> bytes -> bytes -> bytes -> bytes -> bytes.

Variables (w w' : World) (ctx : Z) (r : Response).

Lemma step_new :
  Reference.evp crypt mac EVP_CIPHER_CTX_new w = (r, w') ->
  lookup w' (ret r) = Some fresh.
Proof. intros [= <- <-]. apply lookup_new. Qed.

Lemma step_init (enc : bool) (cipher : option Cipher) (key iv : option bytes)
      (c0 : Context) :
  lookup w ctx = Some c0 ->
  init enc ctx cipher key iv w = (r, w') ->
  lookup w' ctx
  = Some (mkContext enc (or_keep cipher (c_cipher c0)) (c_ivlen c0)
            (or_keep key (c_key c0))
            (or_keep (option_map (firstn (Z.to_nat (c_ivlen c0))) iv) (c_iv c0))
            [] [] false (c_tag c0)).
Proof.
  intros L. unfold init. rewrite L. intros [= <- <-].
  eapply lookup_update; eauto.
Qed.

Lemma step_set_ivlen (a : Z) (c0 : Context) :
  lookup w ctx = Some c0 ->
  ctrl mac ctx EVP_CTRL_GCM_SET_IVLEN a None w = (r, w') ->
  lookup w' ctx
  = Some (mkContext (c_encrypt c0) (c_cipher c0)
            (if 0 <? a then a else c_ivlen c0)
            (c_key c0) (c_iv c0) (c_aad c0) (c_text c0) (c_final c0) (c_tag c0)).
Proof.
  intros L. unfold ctrl. rewrite L. destruct (0 <? a); intros [= <- <-].
  - eapply lookup_update; eauto.
  - rewrite L. now destruct c0.
Qed.

Lemma step_update (enc : bool) (out : OutPtr) (inp : bytes)
      (ci : Cipher) (ivl : Z) (k iv aad text : bytes) (tag : option bytes) :
  lookup w ctx
  = Some (mkContext enc (Some ci) ivl (Some k) (Some iv) aad text false tag) ->
  update_call crypt enc ctx out inp (len inp) w = (r, w') ->
  match out with
  | OutNULL =>
      r = mkResponse 1 (Some (len inp)) []
      /\ lookup w' ctx
         = Some (mkContext enc (Some ci) ivl (Some k) (Some iv)
                   (aad ++ inp) text false tag)
  | OutBuf =>
      let res := crypt ci k iv (length text) inp in
      r = mkResponse 1 (Some (len inp)) res
      /\ lookup w' ctx
         = Some (mkContext enc (Some ci) ivl (Some k) (Some iv) aad
                   (text ++ (if enc then res else inp)) false tag)
  end.
Proof.
  intros L. unfold update_call. rewrite L. cbn [c_cipher c_key c_iv c_encrypt c_final
    c_ivlen c_aad c_text c_tag].
  rewrite Bool.eqb_reflx, firstn_len.
  replace (0 <=? len inp) with true
    by (symmetry; apply Z.leb_le; apply len_nonneg).
  rewrite Z.leb_refl. cbn [andb negb].
  destruct out; intros [= <- <-]; (split; [reflexivity|]);
    eapply lookup_update; eauto.
Qed.

Lemma step_absorb (enc : bool) (inp : bytes) (inl : Z)
      (ci : Cipher) (ivl : Z) (k iv aad text : bytes) (tag : option bytes) :
  inl <= len inp ->
  lookup w ctx
  = Some (mkContext enc (Some ci) ivl (Some k) (Some iv) aad text false tag) ->
  update_call crypt enc ctx OutNULL inp inl w = (r, w') ->
  lookup w' ctx
  = Some (mkContext enc (Some ci) ivl (Some k) (Some iv)
            (aad ++ (if 0 <=? inl then firstn (Z.to_nat inl) inp else []))
            text false tag).
Proof.
  intros Hl L. unfold update_call. rewrite L. cbn [c_cipher c_key c_iv c_encrypt c_final
    c_ivlen c_aad c_text c_tag].
  rewrite Bool.eqb_reflx.
  replace (inl <=? len inp) with true by (symmetry; now apply Z.leb_le).
  cbn [andb negb]. rewrite andb_true_r.
  destruct (0 <=? inl); intros [= <- <-].
  - eapply lookup_update; eauto.
  - now rewrite app_nil_r.
Qed.

Lemma step_update_refused (enc : bool) (out : OutPtr) (inp : bytes) (inl : Z)
      (c0 : Context) :
  inl < 0 ->
  lookup w ctx = Some c0 ->
  update_call crypt enc ctx out inp inl w = (r, w') ->
  r = failed /\ lookup w' ctx = Some c0.
Proof.
  intros Hl L. unfold update_call. rewrite L.
  replace (0 <=? inl) with false by (symmetry; apply Z.leb_gt; exact Hl).
  rewrite andb_false_r. cbn [andb].
  destruct (c_cipher c0), (c_key c0), (c_iv c0); intros [= <- <-]; now split.
Qed.

Lemma step_encrypt_final (ci : Cipher) (ivl : Z) (k iv aad text : bytes)
      (tag : option bytes) :
  lookup w ctx
  = Some (mkContext true (Some ci) ivl (Some k) (Some iv) aad text false tag) ->
  final mac true ctx w = (r, w') ->
  r = mkResponse 1 (Some 0) []
  /\ lookup w' ctx
     = Some (mkContext true (Some ci) ivl (Some k) (Some iv) aad text true tag).
Proof.
  intros L. unfold final. rewrite L. cbn. intros [= <- <-].
  split; [reflexivity|]. eapply lookup_update; eauto.
Qed.

Lemma step_get_tag (ptr : option bytes) (ci : Cipher) (ivl : Z)
      (k iv aad text : bytes) (tag : option bytes) :
  lookup w ctx
  = Some (mkContext true (Some ci) ivl (Some k) (Some iv) aad text true tag) ->
  ctrl mac ctx EVP_CTRL_GCM_GET_TAG AUTH_TAG_LEN ptr w = (r, w') ->
  r = mkResponse 1 None (firstn 16 (mac ci k iv aad text)).
Proof.
  intros L. unfold ctrl. rewrite L. cbn. now intros [= <- <-].
Qed.

Lemma step_set_tag (t : bytes) (ci : Cipher) (ivl : Z)
      (k iv aad text : bytes) (tag : option bytes) (fin : bool) :
  lookup w ctx
  = Some (mkContext false (Some ci) ivl (Some k) (Some iv) aad text fin tag) ->
  ctrl mac ctx EVP_CTRL_GCM_SET_TAG AUTH_TAG_LEN (Some t) w = (r, w') ->
  lookup w' ctx
  = Some (mkContext false (Some ci) ivl (Some k) (Some iv) aad text fin
            (Some (firstn 16 t))).
Proof.
  intros L. unfold ctrl. rewrite L. cbn. intros [= <- <-].
  eapply lookup_update; eauto.
Qed.

Lemma step_decrypt_final (ci : Cipher) (ivl : Z) (k iv aad text t : bytes) :
  lookup w ctx
  = Some (mkContext false (Some ci) ivl (Some k) (Some iv) aad text false (Some t)) ->
  final mac false ctx w = (r, w') ->
  r = mkResponse
        (if bytes_eqb t (firstn (length t) (mac ci k iv aad text)) then 1 else 0)
        (Some 0) [].
Proof.
  intros L. unfold final. rewrite L. cbn.
  destruct (bytes_eqb _ _); now intros [= <- <-].
Qed.

End Steps.


Lemma fit_arg (info : list Value) (i : nat) :
  buffers_fit_int info -> 0 <= Length (arg info i) <= INT_MAX.
Proof.
  intros H. split; [apply len_nonneg|]. unfold arg.
  destruct (nth_in_or_default i info Undefined) as [Hin | ->]; [|discriminate].
  unfold buffers_fit_int in H. rewrite Forall_forall in H. now apply H.
Qed.

Lemma Data_without_instance (v : Value) : HasInstance v = false -> Data v = [].
Proof. now destruct v. Qed.

Lemma DataPointer_nonempty (v : Value) :
  Data v <> [] -> DataPointer v = Some (Data v).
Proof. unfold DataPointer. now destruct (Data v). Qed.

Lemma key_nonempty (info : list Value) (c : Cipher) :
  cipher_type_of (Length (arg info 0)) = Some c -> Data (arg info 0) <> [].
Proof.
  unfold Length. intros H E. rewrite E in H. discriminate H.
Qed.

Lemma to_int_le (z : Z) : 0 <= z -> to_int z <= z.
Proof.
  intros H. unfold to_int.
  pose proof (Z.mod_le (z + 2 ^ 31) (2 ^ 32) ltac:(lia) eq_refl). lia.
Qed.

(** For an IV and associated data whose lengths fit an [int] the
    reference primitive binds and absorbs the buffers as they are. *)
Lemma bound_iv_fits (iv : bytes) : len iv <= INT_MAX -> bound_iv iv = iv.
Proof.
  intros H. unfold bound_iv.
  rewrite to_int_small by (split; [apply len_nonneg | exact H]).
  destruct (Z.ltb_spec 0 (len iv)) as [H0 | H0]; [apply firstn_len|].
  destruct iv; [apply firstn_nil|]. unfold len in H0. cbn in H0. lia.
Qed.

Lemma absorbed_aad_fits (a : Value) : Length a <= INT_MAX -> absorbed_aad a = Data a.
Proof.
  intros H. unfold absorbed_aad.
  rewrite to_int_small by (split; [apply len_nonneg | exact H]).
  replace (0 <=? Length a) with true
    by (symmetry; apply Z.leb_le; apply len_nonneg).
  rewrite andb_true_r. unfold Length. rewrite firstn_len.
  now destruct a.
Qed.

Lemma len_firstn_le (n : nat) (b : bytes) : len (firstn n b) <= Z.of_nat n.
Proof. unfold len. rewrite length_firstn. lia. Qed.

Lemma len_stored_prefix (bs buf : bytes) :
  len bs <= len buf -> len (bs ++ skipn (length bs) buf) = len buf.
Proof. unfold len. rewrite length_app, length_skipn. lia. Qed.

Lemma CopyBuffer_all (buf : bytes) (n : Z) :
  len buf = n -> CopyBuffer buf n = Some buf.
Proof.
  intros <-. unfold CopyBuffer. rewrite Z.leb_refl. now rewrite firstn_len.
Qed.

Ltac simpl_context H :=
  cbn [c_encrypt c_cipher c_ivlen c_key c_iv c_aad c_text c_final c_tag
       fresh or_keep option_map app length] in H.

Ltac simpl_run :=
  cbn [run bind call outcome_of fst snd stored ret outl_store out_store length].

(** Answer the next call of the run with the per-call lemma [lem]. *)
Ltac ref_call lem :=
  match goal with
  | |- context [Reference.evp ?cr ?mc ?c ?w] =>
      let r := fresh "r" in
      let w' := fresh "w" in
      let E := fresh "E" in
      destruct (Reference.evp cr mc c w) as [r w'] eqn:E;
      cbn [Reference.evp] in E;
      eapply lem in E; [|eassumption ..];
      simpl_context E;
      try match type of E with
          | _ /\ _ => destruct E as [-> E]
          | r = _ => subst r
          end;
      simpl_run
  end.

Ltac ref_free :=
  match goal with
  | |- context [Reference.evp ?cr ?mc (EVP_CIPHER_CTX_free ?c) ?w] =>
      destruct (Reference.evp cr mc (EVP_CIPHER_CTX_free c) w);
      simpl_run
  end.

Section Runs.

Variable crypt : Cipher -> bytes -> bytes -> nat -> bytes -> bytes.
Variable mac : Cipher -> bytes -> bytes -> bytes -> bytes -> bytes.
Hypothesis crypt_length :
  forall c k iv off x, length (crypt c k iv off x) = length x.

Lemma crypt_len c k iv off x : len (crypt c k iv off x) = len x.
Proof. unfold len. now rewrite crypt_length. Qed.

(** Encrypt in closed form, for a non-empty IV and a plaintext whose length
    fits an [int]. *)
Lemma Encrypt_on_reference (ub : byte) (ui : Z) (w : World)
      (info : list Value) (c : Cipher) :
  Encrypt_bad_arguments info = false ->
  cipher_type_of (Length (arg info 0)) = Some c ->
  Data (arg info 1) <> [] ->
  Length (arg info 2) <= INT_MAX ->
  let key := Data (arg info 0) in
  let iv := bound_iv (Data (arg info 1)) in
  let ct := crypt c key iv 0 (Data (arg info 2)) in
  let m := firstn 16 (mac c key iv (absorbed_aad (arg info 3)) ct) in
  outcome_of (run (Reference.evp crypt mac) (Encrypt ub ui info) w)
  = Returns (mkEncryptResult ct (m ++ skipn (length m) (new_uchar ub 16))).
Proof.
  intros Ha Hc Hiv Hfit key iv ct m. subst m.
  assert (Hp : 0 <= Length (arg info 2) <= INT_MAX)
    by (split; [apply len_nonneg | exact Hfit]).
  pose proof (Encrypt_ciphertext_len_ge _ _ (cipher_type_of_Some _ _ Hc) Hp) as Hsize.
  unfold Encrypt. rewrite Ha, Hc.
  rewrite (DataPointer_nonempty _ (key_nonempty _ _ Hc)).
  rewrite (DataPointer_nonempty _ Hiv).
  rewrite (to_int_small (Length (arg info 2))) by exact Hp.
  set (alloc := Encrypt_ciphertext_len _ _) in *.
  unfold Length in *. simpl_run.
  ref_call step_new.
  ref_call step_init.
  ref_call step_set_ivlen.
  ref_call step_init.
  fold (bound_iv (Data (arg info 1))) in E2. fold key iv in E2.
  assert (Hlen : len ct <= len (new_uchar ub alloc)).
  { subst ct. rewrite crypt_len, len_new_uchar; lia. }
  assert (Hdone : len (ct ++ skipn (length ct) (new_uchar ub alloc)) = alloc).
  { rewrite (len_stored_prefix _ _ Hlen). apply len_new_uchar. lia. }
  assert (Hct : len (Data (arg info 2)) = len ct)
    by (subst ct; symmetry; apply crypt_len).
  pose proof (to_int_le _ (len_nonneg (Data (arg info 3)))) as Haad.
  unfold absorbed_aad, Length.
  destruct (HasInstance (arg info 3)) eqn:Hh; cbn [andb].
  - simpl_run. ref_call step_absorb.
    ref_call step_update. fold key iv ct in E4 |- *.
    rewrite (store_at_start _ ct Hlen). simpl_run.
    ref_call step_encrypt_final.
    rewrite store_nothing by lia. simpl_run.
    ref_call step_get_tag.
    set (m := firstn 16 _).
    assert (Hm : len m <= len (new_uchar ub AUTH_TAG_LEN)).
    { subst m. rewrite len_new_uchar by discriminate. apply (len_firstn_le 16). }
    rewrite (store_at_start _ m Hm). simpl_run.
    ref_free.
    rewrite reported_total by (unfold INT_MAX in Hp; lia).
    rewrite Z.add_0_r, Hct, CopyBuffer_prefix, CopyBuffer_all; [reflexivity|].
    rewrite (len_stored_prefix _ _ Hm). now apply len_new_uchar.
  - simpl_run.
    ref_call step_update. fold key iv ct in E3 |- *.
    rewrite (store_at_start _ ct Hlen). simpl_run.
    ref_call step_encrypt_final.
    rewrite store_nothing by lia. simpl_run.
    ref_call step_get_tag.
    set (m := firstn 16 _).
    assert (Hm : len m <= len (new_uchar ub AUTH_TAG_LEN)).
    { subst m. rewrite len_new_uchar by discriminate. apply (len_firstn_le 16). }
    rewrite (store_at_start _ m Hm). simpl_run.
    ref_free.
    rewrite reported_total by (unfold INT_MAX in Hp; lia).
    rewrite Z.add_0_r, Hct, CopyBuffer_prefix, CopyBuffer_all; [reflexivity|].
    rewrite (len_stored_prefix _ _ Hm). now apply len_new_uchar.
Qed.

(** Decrypt in closed form, for a non-empty IV and a ciphertext whose
    length fits an [int]. *)
Lemma Decrypt_on_reference (ub : byte) (ui : Z) (w : World)
      (info : list Value) (c : Cipher) :
  Decrypt_bad_arguments info = false ->
  cipher_type_of (Length (arg info 0)) = Some c ->
  Data (arg info 1) <> [] ->
  Length (arg info 2) <= INT_MAX ->
  let key := Data (arg info 0) in
  let iv := bound_iv (Data (arg info 1)) in
  let ct := Data (arg info 2) in
  let tag := Data (arg info 4) in
  outcome_of (run (Reference.evp crypt mac) (Decrypt ub ui info) w)
  = Returns (mkDecryptResult (crypt c key iv 0 ct)
               (bytes_eqb tag
                  (firstn 16 (mac c key iv (absorbed_aad (arg info 3)) ct)))).
Proof.
  intros Ha Hc Hiv Hfit key iv ct tag. subst ct.
  assert (Htag : len tag = 16).
  { unfold Decrypt_bad_arguments in Ha. apply orb_false_elim in Ha.
    destruct Ha as [_ Ha]. apply negb_false_iff, Z.eqb_eq in Ha. exact Ha. }
  assert (Hread : firstn 16 tag = tag).
  { apply firstn_all2. unfold len in Htag. lia. }
  assert (Hcount : length tag = 16%nat) by (unfold len in Htag; lia).
  assert (Hptr : DataPointer (arg info 4) = Some tag).
  { apply DataPointer_nonempty. fold tag. intros E. now rewrite E in Hcount. }
  assert (Hp : 0 <= Length (arg info 2) <= INT_MAX)
    by (split; [apply len_nonneg | exact Hfit]).
  pose proof (Decrypt_plaintext_len_ge _ Hp) as Hsize.
  unfold Decrypt. rewrite Ha, Hc, Hptr.
  rewrite (DataPointer_nonempty _ (key_nonempty _ _ Hc)).
  rewrite (DataPointer_nonempty _ Hiv).
  rewrite (to_int_small (Length (arg info 2))) by exact Hp.
  set (alloc := Decrypt_plaintext_len _) in *.
  unfold Length in *. simpl_run.
  ref_call step_new.
  ref_call step_init.
  ref_call step_set_ivlen.
  ref_call step_init.
  fold (bound_iv (Data (arg info 1))) in E2. fold key iv in E2.
  set (pt := crypt c key iv 0 (Data (arg info 2))).
  assert (Hpt : len (Data (arg info 2)) = len pt)
    by (subst pt; symmetry; apply crypt_len).
  assert (Hlen : len pt <= len (new_uchar ub alloc)).
  { rewrite len_new_uchar; lia. }
  assert (Hdone : len (pt ++ skipn (length pt) (new_uchar ub alloc)) = alloc).
  { rewrite (len_stored_prefix _ _ Hlen). apply len_new_uchar. lia. }
  pose proof (to_int_le _ (len_nonneg (Data (arg info 3)))) as Haad.
  unfold absorbed_aad, Length.
  destruct (HasInstance (arg info 3)) eqn:Hh; cbn [andb].
  - simpl_run. ref_call step_absorb.
    ref_call step_update. fold key iv pt.
    rewrite (store_at_start _ pt Hlen). simpl_run.
    ref_call step_set_tag.
    ref_call step_decrypt_final.
    fold tag. rewrite Hread, Hcount.
    rewrite store_nothing by lia. simpl_run.
    ref_free.
    rewrite reported_total by (unfold INT_MAX in Hp; lia).
    rewrite Z.add_0_r, Hpt, CopyBuffer_prefix.
    now destruct (bytes_eqb tag _).
  - simpl_run.
    ref_call step_update. fold key iv pt.
    rewrite (store_at_start _ pt Hlen). simpl_run.
    ref_call step_set_tag.
    ref_call step_decrypt_final.
    fold tag. rewrite Hread, Hcount.
    rewrite store_nothing by lia. simpl_run.
    ref_free.
    rewrite reported_total by (unfold INT_MAX in Hp; lia).
    rewrite Z.add_0_r, Hpt, CopyBuffer_prefix.
    now destruct (bytes_eqb tag _).
Qed.

(** A primary buffer of 2^31 up to 2^32 - 1 bytes reaches the data update
    with a negative length, and the update is refused: nothing is processed
    and the output length stays what it was, here 0 and without associated
    data.  Encrypt returns no ciphertext and the tag of the empty text. *)
Lemma Encrypt_long_on_reference (ub : byte) (w : World)
      (info : list Value) (c : Cipher) :
  Encrypt_bad_arguments info = false ->
  cipher_type_of (Length (arg info 0)) = Some c ->
  Data (arg info 1) <> [] ->
  HasInstance (arg info 3) = false ->
  2 ^ 31 <= Length (arg info 2) < 2 ^ 32 ->
  let m := firstn 16 (mac c (Data (arg info 0)) (bound_iv (Data (arg info 1))) [] []) in
  outcome_of (run (Reference.evp crypt mac) (Encrypt ub 0 info) w)
  = Returns (mkEncryptResult [] (m ++ skipn (length m) (new_uchar ub 16))).
Proof.
  intros Ha Hc Hiv Hh Hlong m.
  assert (Hneg : to_int (Length (arg info 2)) < 0)
    by (rewrite to_int_wraps by exact Hlong; lia).
  unfold Encrypt. rewrite Ha, Hc, Hh.
  rewrite (DataPointer_nonempty _ (key_nonempty _ _ Hc)).
  rewrite (DataPointer_nonempty _ Hiv).
  set (alloc := Encrypt_ciphertext_len _ _).
  set (n := to_int (Length (arg info 2))) in *.
  pose proof (len_nonneg (new_uchar ub alloc)) as Hbuf.
  simpl_run.
  ref_call step_new.
  ref_call step_init.
  ref_call step_set_ivlen.
  ref_call step_init.
  fold (bound_iv (Data (arg info 1))) in E2.
  ref_call step_update_refused.
  unfold failed. simpl_run.
  rewrite store_nothing by lia. simpl_run.
  ref_call step_encrypt_final.
  rewrite store_nothing by lia. simpl_run.
  ref_call step_get_tag. subst m. set (m := firstn 16 _).
  assert (Hm : len m <= len (new_uchar ub AUTH_TAG_LEN)).
  { subst m. rewrite len_new_uchar by discriminate. apply (len_firstn_le 16). }
  rewrite (store_at_start _ m Hm). simpl_run.
  ref_free.
  change (to_uint32 (size_add (to_size_t 0) 0)) with 0.
  unfold CopyBuffer at 1.
  replace (0 <=? len (new_uchar ub alloc)) with true
    by (symmetry; now apply Z.leb_le).
  cbn [Z.to_nat firstn].
  rewrite CopyBuffer_all; [reflexivity|].
  rewrite (len_stored_prefix _ _ Hm). now apply len_new_uchar.
Qed.

(** Decrypt of such a buffer returns no plaintext and the verdict on the
    empty text. *)
Lemma Decrypt_long_on_reference (ub : byte) (w : World)
      (info : list Value) (c : Cipher) :
  Decrypt_bad_arguments info = false ->
  cipher_type_of (Length (arg info 0)) = Some c ->
  Data (arg info 1) <> [] ->
  HasInstance (arg info 3) = false ->
  2 ^ 31 <= Length (arg info 2) < 2 ^ 32 ->
  outcome_of (run (Reference.evp crypt mac) (Decrypt ub 0 info) w)
  = Returns (mkDecryptResult []
               (bytes_eqb (Data (arg info 4))
                  (firstn 16 (mac c (Data (arg info 0))
                                (bound_iv (Data (arg info 1))) [] [])))).
Proof.
  intros Ha Hc Hiv Hh Hlong.
  set (tag := Data (arg info 4)).
  assert (Htag : len tag = 16).
  { unfold Decrypt_bad_arguments in Ha. apply orb_false_elim in Ha.
    destruct Ha as [_ Ha]. apply negb_false_iff, Z.eqb_eq in Ha. exact Ha. }
  assert (Hread : firstn 16 tag = tag).
  { apply firstn_all2. unfold len in Htag. lia. }
  assert (Hcount : length tag = 16%nat) by (unfold len in Htag; lia).
  assert (Hptr : DataPointer (arg info 4) = Some tag).
  { apply DataPointer_nonempty. fold tag. intros E. now rewrite E in Hcount. }
  assert (Hneg : to_int (Length (arg info 2)) < 0)
    by (rewrite to_int_wraps by exact Hlong; lia).
  unfold Decrypt. rewrite Ha, Hc, Hh, Hptr.
  rewrite (DataPointer_nonempty _ (key_nonempty _ _ Hc)).
  rewrite (DataPointer_nonempty _ Hiv).
  set (alloc := Decrypt_plaintext_len _).
  set (n := to_int (Length (arg info 2))) in *.
  pose proof (len_nonneg (new_uchar ub alloc)) as Hbuf.
  simpl_run.
  ref_call step_new.
  ref_call step_init.
  ref_call step_set_ivlen.
  ref_call step_init.
  fold (bound_iv (Data (arg info 1))) in E2.
  ref_call step_update_refused.
  unfold failed. simpl_run.
  rewrite store_nothing by lia. simpl_run.
  ref_call step_set_tag.
  ref_call step_decrypt_final.
  fold tag. rewrite Hread, Hcount.
  rewrite store_nothing by lia. simpl_run.
  ref_free.
  change (to_uint32 (size_add (to_size_t 0) 0)) with 0.
  unfold CopyBuffer.
  replace (0 <=? len (new_uchar ub alloc)) with true
    by (symmetry; now apply Z.leb_le).
  cbn [Z.to_nat firstn].
  now destruct (bytes_eqb tag _).
Qed.

End Runs.

End ReferenceRuns.

(** ** Laws of the small instance *)

Module ToyLaws.

Import Toy.

Lemma xor_byte_involutive (a b : byte) : xor_byte (xor_byte a b) b = a.
Proof.
  unfold xor_byte.
  destruct (Byte.to_bits a) as [a0 [a1 [a2 [a3 [a4 [a5 [a6 a7]]]]]]] eqn:Ea.
  destruct (Byte.to_bits b) as [b0 [b1 [b2 [b3 [b4 [b5 [b6 b7]]]]]]] eqn:Eb.
  rewrite Byte.to_bits_of_bits.
  rewrite !xorb_assoc, !xorb_nilpotent, !xorb_false_r.
  rewrite <- Ea. apply Byte.of_bits_to_bits.
Qed.

Lemma crypt_length (c : Cipher) (k iv : bytes) (off : nat) (x : bytes) :
  length (crypt c k iv off x) = length x.
Proof.
  unfold crypt. revert off.
  induction x as [|b x IH]; intros off; cbn; [reflexivity|]. now rewrite IH.
Qed.

Lemma crypt_involutive (c : Cipher) (k iv : bytes) (off : nat) (x : bytes) :
  crypt c k iv off (crypt c k iv off x) = x.
Proof.
  unfold crypt. revert off.
  induction x as [|b x IH]; intros off; cbn; [reflexivity|].
  now rewrite xor_byte_involutive, IH.
Qed.

Lemma mac_length (c : Cipher) (k iv aad text : bytes) :
  length (mac c k iv aad text) = 16%nat.
Proof. reflexivity. Qed.

End ToyLaws.

(** ** Where seal and open fail on the reference primitive

    Two kinds of calls pass the argument and key-length checks and still
    come back without the data.  With an empty IV buffer the IV pointer is
    [NULL], no IV is ever bound and every update is refused.  With a primary
    buffer of 2^31 bytes the length turns negative in the [int] parameter of
    the update, which is refused as well.  In both cases the method goes on:
    the status of the update is not tested. *)

Lemma long_buffer_length : len (repeat x00 (Z.to_nat (2 ^ 31))) = 2 ^ 31.
Proof.
  unfold len. rewrite repeat_length, Z2Nat.id by discriminate. reflexivity.
Qed.

(** C6, as stated, fails.  With an empty IV encrypt of the five bytes
    "hello" returns a ciphertext of 0 bytes when the uninitialised [outl]
    happens to be 0, and 14 bytes of the fresh allocation when it happens to
    be 7.  With a plaintext of 2^31 bytes encrypt returns a ciphertext of 0
    bytes. *)
Lemma Encrypt_output_lengths_counterexample :
  let key := Toy.zeros 16 in
  let no_iv := [Buffer key; Buffer []; Buffer Toy.hello; Null] in
  let long := repeat x00 (Z.to_nat (2 ^ 31)) in
  let too_long := [Buffer key; Buffer (Toy.zeros 12); Buffer long; Null] in
  (Encrypt_bad_arguments no_iv = false
   /\ valid_key_len (Length (arg no_iv 0))
   /\ Length (arg no_iv 2) = 5
   /\ outcome_of (run Toy.evp (Encrypt x00 0 no_iv) Reference.initial)
      = Returns (mkEncryptResult [] (Toy.zeros 16))
   /\ outcome_of (run Toy.evp (Encrypt x00 7 no_iv) Reference.initial)
      = Returns (mkEncryptResult (Toy.zeros 14) (Toy.zeros 16)))
  /\ (Encrypt_bad_arguments too_long = false
      /\ valid_key_len (Length (arg too_long 0))
      /\ Length (arg too_long 2) = 2 ^ 31
      /\ exists tag,
           outcome_of (run Toy.evp (Encrypt x00 0 too_long) Reference.initial)
           = Returns (mkEncryptResult [] tag)).
Proof.
  intros key no_iv long too_long. split.
  - split; [reflexivity|]. split; [left; reflexivity|]. repeat split.
  - assert (Hn : Length (arg too_long 2) = 2 ^ 31) by exact long_buffer_length.
    split; [reflexivity|]. split; [left; reflexivity|]. split; [exact Hn|].
    eexists.
    apply (ReferenceRuns.Encrypt_long_on_reference Toy.crypt Toy.mac x00
             Reference.initial too_long aes_128_gcm);
      [reflexivity | reflexivity | discriminate | reflexivity | rewrite Hn; lia].
Qed.

(** C2, as stated, fails.  With an empty IV decrypt of a five-byte
    ciphertext returns a plaintext of 0 bytes; so does decrypt of a
    ciphertext of 2^31 bytes. *)
Lemma Decrypt_always_returns_plaintext_counterexample :
  let key := Toy.zeros 16 in
  let tag := Toy.zeros 16 in
  let no_iv := [Buffer key; Buffer []; Buffer Toy.hello; Null; Buffer tag] in
  let long := repeat x00 (Z.to_nat (2 ^ 31)) in
  let too_long := [Buffer key; Buffer (Toy.zeros 12); Buffer long; Null; Buffer tag] in
  (Decrypt_bad_arguments no_iv = false
   /\ valid_key_len (Length (arg no_iv 0))
   /\ Length (arg no_iv 2) = 5
   /\ outcome_of (run Toy.evp (Decrypt x00 0 no_iv) Reference.initial)
      = Returns (mkDecryptResult [] false))
  /\ (Decrypt_bad_arguments too_long = false
      /\ valid_key_len (Length (arg too_long 0))
      /\ Length (arg too_long 2) = 2 ^ 31
      /\ outcome_of (run Toy.evp (Decrypt x00 0 too_long) Reference.initial)
         = Returns (mkDecryptResult [] false)).
Proof.
  intros key tag no_iv long too_long. split.
  - split; [reflexivity|]. split; [left; reflexivity|]. repeat split.
  - assert (Hn : Length (arg too_long 2) = 2 ^ 31) by exact long_buffer_length.
    split; [reflexivity|]. split; [left; reflexivity|]. split; [exact Hn|].
    etransitivity.
    + apply (ReferenceRuns.Decrypt_long_on_reference Toy.crypt Toy.mac x00
               Reference.initial too_long aes_128_gcm);
        [reflexivity | reflexivity | discriminate | reflexivity | rewrite Hn; lia].
    + reflexivity.
Qed.

(** C1, as stated, fails.  With an empty IV encrypt of "hello" returns an
    empty ciphertext and 16 bytes of fresh memory for a tag, and decrypt of
    these returns an empty plaintext with [auth_ok = false].  With a
    plaintext of 2^31 bytes encrypt returns an empty ciphertext with the tag
    of the empty text, and decrypt of these returns the empty plaintext,
    not the 2^31 bytes, with [auth_ok = true]. *)
Lemma round_trip_counterexample :
  let key := Toy.zeros 16 in
  let iv := Toy.zeros 12 in
  let long := repeat x00 (Z.to_nat (2 ^ 31)) in
  (exists ct tag,
      outcome_of (run Toy.evp (Encrypt x00 0 [Buffer key; Buffer []; Buffer Toy.hello; Null])
                    Reference.initial)
      = Returns (mkEncryptResult ct tag)
      /\ outcome_of (run Toy.evp (Decrypt x00 0
                                    [Buffer key; Buffer []; Buffer ct; Null; Buffer tag])
                       Reference.initial)
         = Returns (mkDecryptResult [] false))
  /\ (len long = 2 ^ 31
      /\ exists ct tag,
           outcome_of (run Toy.evp (Encrypt x00 0 [Buffer key; Buffer iv; Buffer long; Null])
                         Reference.initial)
           = Returns (mkEncryptResult ct tag)
           /\ outcome_of (run Toy.evp (Decrypt x00 0
                                         [Buffer key; Buffer iv; Buffer ct; Null;
                                          Buffer tag])
                            Reference.initial)
              = Returns (mkDecryptResult [] true)).
Proof.
  intros key iv long. split.
  - clear long. exists [], (Toy.zeros 16). split; reflexivity.
  - split; [exact long_buffer_length|].
    assert (Hn : Length (arg [Buffer key; Buffer iv; Buffer long; Null] 2) = 2 ^ 31)
      by exact long_buffer_length.
    eexists _, _. split.
    + apply (ReferenceRuns.Encrypt_long_on_reference Toy.crypt Toy.mac x00
               Reference.initial [Buffer key; Buffer iv; Buffer long; Null] aes_128_gcm);
        [reflexivity | reflexivity | discriminate | reflexivity | rewrite Hn; lia].
    + cbn [arg nth Data]. clear Hn. clear long. reflexivity.
Qed.

(** ** Seal and open on the reference primitive *)

Section ReferencePrimitive.

Variable crypt : Cipher -> bytes -> bytes -> nat -> bytes -> bytes.
Variable mac : Cipher -> bytes -> bytes -> bytes -> bytes -> bytes.

(** Counter mode: the pass keeps the length and undoes itself. *)
Hypothesis crypt_length :
  forall c k iv off x, length (crypt c k iv off x) = length x.
Hypothesis crypt_involutive :
  forall c k iv off x, crypt c k iv off (crypt c k iv off x) = x.
(** The tag function gives 16 bytes. *)
Hypothesis mac_length :
  forall c k iv aad text, length (mac c k iv aad text) = 16%nat.

(** C6, amended.  On the reference primitive, for every call that passes
    encrypt's argument and key-length checks with an IV that is not empty
    and a plaintext of at most [INT_MAX] bytes, the empty plaintext
    included, encrypt returns a ciphertext exactly as long as the plaintext
    and a tag of exactly 16 bytes.  The tag of a returned result is 16 bytes
    long on any primitive and for any arguments. *)
Theorem Encrypt_output_lengths :
  forall (uninit_byte : byte) (uninit_int : Z) (info : list Value),
    (forall w : Reference.World,
        Encrypt_bad_arguments info = false ->
        valid_key_len (Length (arg info 0)) ->
        Data (arg info 1) <> [] ->
        Length (arg info 2) <= INT_MAX ->
        exists v,
          outcome_of (run (Reference.evp crypt mac)
                        (Encrypt uninit_byte uninit_int info) w)
          = Returns v
          /\ len (ciphertext v) = Length (arg info 2)
          /\ len (auth_tag v) = AUTH_TAG_LEN)
    /\ (forall (World : Type) (h : Handler World) (w : World) v,
           outcome_of (run h (Encrypt uninit_byte uninit_int info) w) = Returns v ->
           len (auth_tag v) = AUTH_TAG_LEN).
Proof.
  intros ub ui info. split.
  - intros w Ha Hk Hiv Hfit. apply cipher_type_of_valid in Hk.
    destruct (cipher_type_of _) as [c|] eqn:Hc; [clear Hk | now contradiction Hk].
    eexists. split.
    + apply (ReferenceRuns.Encrypt_on_reference crypt mac crypt_length); eauto.
    + cbn [ciphertext auth_tag]. split.
      * unfold Length, len. now rewrite crypt_length.
      * apply ReferenceRuns.len_stored_prefix.
        rewrite len_new_uchar by discriminate.
        apply (ReferenceRuns.len_firstn_le 16).
  - intros World h w v. unfold Encrypt.
    destruct (Encrypt_bad_arguments info); [discriminate|].
    destruct (cipher_type_of _); [|discriminate].
    destruct (HasInstance (arg info 3)); exec h; try discriminate;
      intros [= <-]; cbn [auth_tag];
      match goal with
      | H : CopyBuffer _ AUTH_TAG_LEN = Some _ |- _ =>
          apply CopyBuffer_length in H; [exact H | discriminate]
      end.
Qed.

(** C2, amended.  On the reference primitive, every decrypt call that
    passes the argument and key-length checks with an IV that is not empty
    and a ciphertext of at most [INT_MAX] bytes returns a result object: its
    plaintext is the primitive's output for the whole ciphertext and has the
    ciphertext's length, and [auth_ok] tells whether the given tag is the
    tag of the associated data and the ciphertext.  A false verdict changes
    neither the plaintext nor the kind of outcome; on any primitive
    whatsoever a call that passes the checks never throws. *)
Theorem Decrypt_always_returns_plaintext :
  forall (uninit_byte : byte) (uninit_int : Z) (info : list Value),
    Decrypt_bad_arguments info = false ->
    valid_key_len (Length (arg info 0)) ->
    (forall w : Reference.World,
        Data (arg info 1) <> [] ->
        Length (arg info 2) <= INT_MAX ->
        exists c v,
          cipher_type_of (Length (arg info 0)) = Some c
          /\ outcome_of (run (Reference.evp crypt mac)
                           (Decrypt uninit_byte uninit_int info) w)
             = Returns v
          /\ plaintext v
             = crypt c (Data (arg info 0)) (bound_iv (Data (arg info 1))) 0
                 (Data (arg info 2))
          /\ len (plaintext v) = Length (arg info 2)
          /\ auth_ok v
             = bytes_eqb (Data (arg info 4))
                 (firstn 16 (mac c (Data (arg info 0)) (bound_iv (Data (arg info 1)))
                               (absorbed_aad (arg info 3)) (Data (arg info 2)))))
    /\ (forall (World : Type) (h : Handler World) (w : World) message,
           outcome_of (run h (Decrypt uninit_byte uninit_int info) w)
           <> Throws message).
Proof.
  intros ub ui info Ha Hk. apply cipher_type_of_valid in Hk.
  destruct (cipher_type_of _) as [c|] eqn:Hc; [clear Hk | now contradiction Hk].
  split.
  - intros w Hiv Hfit. exists c. eexists. split; [reflexivity|]. split.
    + apply (ReferenceRuns.Decrypt_on_reference crypt mac crypt_length); eauto.
    + cbn [plaintext auth_ok]. repeat split.
      unfold Length, len. now rewrite crypt_length.
  - intros World h w message. unfold Decrypt. rewrite Ha, Hc.
    destruct (HasInstance (arg info 3)); exec h; discriminate.
Qed.

(** C1, amended.  Round trip on the reference primitive: for a key of 16,
    24 or 32 bytes, an IV that is not empty, a plaintext of at most
    [INT_MAX] bytes and any associated data (a buffer, null or undefined),
    encrypt returns a ciphertext and a tag, and decrypt of that ciphertext
    and tag under the same key, IV and associated data returns the plaintext
    with [auth_ok = true]. *)
Theorem round_trip :
  forall (uninit_byte : byte) (uninit_int : Z) (uninit_byte' : byte)
         (uninit_int' : Z) (w w' : Reference.World)
         (key iv p : bytes) (a : Value),
    valid_key_len (len key) ->
    IsUndefined a || IsNull a || HasInstance a = true ->
    iv <> [] -> len p <= INT_MAX ->
    exists ct tag,
      outcome_of (run (Reference.evp crypt mac) (Encrypt uninit_byte uninit_int
                             [Buffer key; Buffer iv; Buffer p; a]) w)
      = Returns (mkEncryptResult ct tag)
      /\ outcome_of (run (Reference.evp crypt mac) (Decrypt uninit_byte' uninit_int'
                                [Buffer key; Buffer iv; Buffer ct; a; Buffer tag]) w')
         = Returns (mkDecryptResult p true).
Proof.
  intros ub ui ub' ui' w w' key iv p a Hk Ha Hiv Hp.
  apply cipher_type_of_valid in Hk.
  destruct (cipher_type_of (len key)) as [c|] eqn:Hc; [clear Hk | now contradiction Hk].
  set (ct := crypt c key (bound_iv iv) 0 p).
  set (tag := mac c key (bound_iv iv) (absorbed_aad a) ct).
  assert (Htag : length tag = 16%nat) by apply mac_length.
  exists ct, tag. split.
  - rewrite (ReferenceRuns.Encrypt_on_reference crypt mac crypt_length ub ui w _ c).
    + cbn [arg nth Data]. fold ct tag.
      rewrite firstn_all2 by lia. rewrite skipn_all2, app_nil_r; [reflexivity|].
      unfold new_uchar. rewrite repeat_length, Htag. reflexivity.
    + unfold Encrypt_bad_arguments. cbn [arg nth HasInstance length negb orb].
      now rewrite Ha.
    + exact Hc.
    + exact Hiv.
    + exact Hp.
  - rewrite (ReferenceRuns.Decrypt_on_reference crypt mac crypt_length ub' ui' w' _ c).
    + cbn [arg nth Data]. fold ct tag. subst ct.
      rewrite crypt_involutive, firstn_all2 by lia.
      now rewrite bytes_eqb_refl.
    + unfold Decrypt_bad_arguments. cbn [arg nth HasInstance length negb orb].
      rewrite Ha. unfold Length, len. cbn [Data]. now rewrite Htag.
    + exact Hc.
    + exact Hiv.
    + unfold Length, len. cbn [arg nth Data]. subst ct. rewrite crypt_length. exact Hp.
Qed.

End ReferencePrimitive.

(** ** The statements at concrete inputs *)

Lemma Encrypt_output_lengths_witness :
  let info := [Buffer (repeat x2a 24); Buffer (Toy.zeros 12); Buffer []; Null] in
  Encrypt_bad_arguments info = false
  /\ valid_key_len (Length (arg info 0))
  /\ Data (arg info 1) <> []
  /\ Length (arg info 2) <= INT_MAX
  /\ exists v,
       outcome_of (run Toy.evp (Encrypt x00 0 info) Reference.initial) = Returns v
       /\ len (ciphertext v) = Length (arg info 2)
       /\ len (auth_tag v) = AUTH_TAG_LEN.
Proof.
  intros info.
  assert (Ha : Encrypt_bad_arguments info = false) by reflexivity.
  assert (Hk : valid_key_len (Length (arg info 0))) by (right; left; reflexivity).
  assert (Hiv : Data (arg info 1) <> []) by discriminate.
  assert (Hfit : Length (arg info 2) <= INT_MAX) by (cbv; discriminate).
  split; [exact Ha|]. split; [exact Hk|]. split; [exact Hiv|]. split; [exact Hfit|].
  exact (proj1 (Encrypt_output_lengths Toy.crypt Toy.mac ToyLaws.crypt_length
                  x00 0 info) Reference.initial Ha Hk Hiv Hfit).
Defined.

Lemma Decrypt_always_returns_plaintext_witness :
  let info := [Buffer (repeat x2a 16); Buffer (Toy.zeros 12); Buffer Toy.hello;
               Null; Buffer (Toy.zeros 16)] in
  Decrypt_bad_arguments info = false
  /\ valid_key_len (Length (arg info 0))
  /\ Data (arg info 1) <> []
  /\ Length (arg info 2) <= INT_MAX
  /\ exists c v,
       cipher_type_of (Length (arg info 0)) = Some c
       /\ outcome_of (run Toy.evp (Decrypt x00 0 info) Reference.initial) = Returns v
       /\ plaintext v
          = Toy.crypt c (Data (arg info 0)) (bound_iv (Data (arg info 1))) 0
              (Data (arg info 2))
       /\ len (plaintext v) = Length (arg info 2)
       /\ auth_ok v
          = bytes_eqb (Data (arg info 4))
              (firstn 16 (Toy.mac c (Data (arg info 0)) (bound_iv (Data (arg info 1)))
                            (absorbed_aad (arg info 3)) (Data (arg info 2)))).
Proof.
  intros info.
  assert (Ha : Decrypt_bad_arguments info = false) by reflexivity.
  assert (Hk : valid_key_len (Length (arg info 0))) by (left; reflexivity).
  assert (Hiv : Data (arg info 1) <> []) by discriminate.
  assert (Hfit : Length (arg info 2) <= INT_MAX) by (cbv; discriminate).
  split; [exact Ha|]. split; [exact Hk|]. split; [exact Hiv|]. split; [exact Hfit|].
  exact (proj1 (Decrypt_always_returns_plaintext Toy.crypt Toy.mac
                  ToyLaws.crypt_length x00 0 info Ha Hk) Reference.initial Hiv Hfit).
Defined.

Lemma round_trip_witness :
  let key := repeat x2a 16 in
  let iv := Toy.zeros 12 in
  valid_key_len (len key)
  /\ IsUndefined Null || IsNull Null || HasInstance Null = true
  /\ iv <> [] /\ len Toy.hello <= INT_MAX
  /\ exists ct tag,
       outcome_of (run Toy.evp (Encrypt x00 0
                                  [Buffer key; Buffer iv; Buffer Toy.hello; Null])
                     Reference.initial)
       = Returns (mkEncryptResult ct tag)
       /\ outcome_of (run Toy.evp (Decrypt x00 0
                                     [Buffer key; Buffer iv; Buffer ct; Null; Buffer tag])
                        Reference.initial)
          = Returns (mkDecryptResult Toy.hello true).
Proof.
  intros key iv.
  assert (Hk : valid_key_len (len key)) by (left; reflexivity).
  assert (Ha : IsUndefined Null || IsNull Null || HasInstance Null = true)
    by reflexivity.
  assert (Hiv : iv <> []) by discriminate.
  assert (Hp : len Toy.hello <= INT_MAX) by (cbv; discriminate).
  split; [exact Hk|]. split; [exact Ha|]. split; [exact Hiv|]. split; [exact Hp|].
  exact (round_trip Toy.crypt Toy.mac ToyLaws.crypt_length ToyLaws.crypt_involutive
           ToyLaws.mac_length x00 0 x00 0 Reference.initial Reference.initial
           key iv Toy.hello Null Hk Ha Hiv Hp).
Defined.

Lemma output_size_and_reported_length_witness :
  let info := [Buffer (repeat x2a 24); Buffer (Toy.zeros 12); Buffer Toy.hello; Null] in
  let e := run Toy.evp (Encrypt x00 0 info) Reference.initial in
  (valid_key_len 24 /\ 0 <= 0 <= largest_input 24 /\ 0 <= 0 <= largest_input 16
   /\ 0 <= 5 <= largest_input 24 /\ 0 <= 5 <= largest_input 16 /\ 1 <= 5)
  /\ 0 <= Encrypt_ciphertext_len 24 0
  /\ 0 <= Decrypt_plaintext_len 0
  /\ 5 <= Encrypt_ciphertext_len 24 5
  /\ Decrypt_plaintext_len 5 = ((5 - 1) / 16 + 1) * 16
  /\ exists ctx inp n r1 ctx' r2,
       In (EVP_EncryptUpdate ctx OutBuf inp n, r1) (trace_of e)
       /\ In (EVP_EncryptFinal_ex ctx', r2) (trace_of e)
       /\ forall o1 o2,
            outl_store r1 = Some o1 -> outl_store r2 = Some o2 ->
            len (ciphertext (mkEncryptResult
                               (Toy.crypt aes_192_gcm (repeat x2a 24) (Toy.zeros 12)
                                  0 Toy.hello)
                               (Toy.mac aes_192_gcm (repeat x2a 24) (Toy.zeros 12) []
                                  (Toy.crypt aes_192_gcm (repeat x2a 24) (Toy.zeros 12)
                                     0 Toy.hello))))
            = to_uint32 (size_add (to_size_t o1) o2)
            /\ (0 <= o1 -> 0 <= o2 -> o1 + o2 < 2 ^ 32 ->
                len (ciphertext (mkEncryptResult
                                   (Toy.crypt aes_192_gcm (repeat x2a 24) (Toy.zeros 12)
                                      0 Toy.hello)
                                   (Toy.mac aes_192_gcm (repeat x2a 24) (Toy.zeros 12) []
                                      (Toy.crypt aes_192_gcm (repeat x2a 24)
                                         (Toy.zeros 12) 0 Toy.hello))))
                = o1 + o2).
Proof.
  intros info e.
  assert (Hk : valid_key_len 24) by (right; left; reflexivity).
  assert (H0 : 0 <= 0 <= largest_input 24) by (split; cbv; discriminate).
  assert (H0' : 0 <= 0 <= largest_input 16) by (split; cbv; discriminate).
  assert (H5 : 0 <= 5 <= largest_input 24) by (split; cbv; discriminate).
  assert (H5' : 0 <= 5 <= largest_input 16) by (split; cbv; discriminate).
  assert (H1 : 1 <= 5) by (cbv; discriminate).
  destruct output_size_and_reported_length as (Hsize & Hdec & Henc & _).
  pose proof (Hsize 24 0 Hk H0) as He0.
  pose proof (Hsize 24 5 Hk H5) as He5.
  destruct (Hdec 0 H0') as (Hd0 & _).
  destruct (Hdec 5 H5') as (_ & Hr).
  destruct (Hr H1) as (_ & Hd5 & _).
  split; [exact (conj Hk (conj H0 (conj H0' (conj H5 (conj H5' H1)))))|].
  split; [exact He0|]. split; [exact Hd0|]. split; [exact He5|]. split; [exact Hd5|].
  exact (Henc x00 0 _ Toy.evp Reference.initial info _ eq_refl).
Defined.

(** The concrete scenario of the specification (section 8) on the small
    instance: a 16-byte key, a 12-byte IV, the plaintext "hello" and no
    associated data.  The ciphertext has 5 bytes and the tag 16; decrypt with
    the tag gives the plaintext back with [auth_ok = true]; with the first
    byte of the tag changed it still returns the plaintext, with
    [auth_ok = false]. *)
Example hello_scenario :
  let key := repeat x2a 16 in
  let iv := Toy.zeros 12 in
  exists ct tag,
    outcome_of (run Toy.evp (Encrypt x00 0 [Buffer key; Buffer iv; Buffer Toy.hello; Null])
                  Reference.initial)
    = Returns (mkEncryptResult ct tag)
    /\ len ct = 5 /\ len tag = 16
    /\ outcome_of (run Toy.evp (Decrypt x00 0
                                  [Buffer key; Buffer iv; Buffer ct; Null; Buffer tag])
                     Reference.initial)
       = Returns (mkDecryptResult Toy.hello true)
    /\ outcome_of (run Toy.evp (Decrypt x00 0
                                  [Buffer key; Buffer iv; Buffer ct; Null;
                                   Buffer (Toy.xor_byte x01 (hd x00 tag) :: tl tag)])
                     Reference.initial)
       = Returns (mkDecryptResult Toy.hello false).
Proof.
  intros key iv. eexists _, _. split; [vm_compute; reflexivity|].
  repeat split.
Qed.

(** * Further properties of the two methods *)

(** ** Arguments *)

(** X1.  [undefined] and [null] are the same associated-data argument: the
    two calls are the same program, so they make the same calls and end the
    same way on every primitive.  Leaving the argument out is different:
    with three arguments encrypt throws the argument error. *)
Theorem undefined_and_null_associated_data_agree :
  forall (uninit_byte : byte) (uninit_int : Z) (a0 a1 a2 a4 : Value)
         (rest : list Value),
    Encrypt uninit_byte uninit_int (a0 :: a1 :: a2 :: Undefined :: rest)
    = Encrypt uninit_byte uninit_int (a0 :: a1 :: a2 :: Null :: rest)
    /\ Decrypt uninit_byte uninit_int (a0 :: a1 :: a2 :: Undefined :: a4 :: rest)
       = Decrypt uninit_byte uninit_int (a0 :: a1 :: a2 :: Null :: a4 :: rest)
    /\ Encrypt uninit_byte uninit_int [a0; a1; a2]
       = Ret (Throws Encrypt_arguments_message).
Proof.
  intros ub ui a0 a1 a2 a4 rest. split; [|split].
  - unfold Encrypt, Encrypt_bad_arguments. reflexivity.
  - unfold Decrypt, Decrypt_bad_arguments. reflexivity.
  - reflexivity.
Qed.

(** X2.  Exactly which encrypt calls end in the argument error, on every
    primitive: those with fewer than four arguments, those whose key, IV or
    plaintext is not a buffer, and those whose associated data is something
    other than a buffer, null or undefined.  For decrypt the tag joins in:
    fewer than five arguments, or a tag that is not a buffer of 16 bytes. *)
Theorem argument_errors_characterised :
  forall (uninit_byte : byte) (uninit_int : Z) (World : Type)
         (h : Handler World) (w : World) (info : list Value),
    (outcome_of (run h (Encrypt uninit_byte uninit_int info) w)
     = Throws Encrypt_arguments_message
     <-> ((length info < 4)%nat
          \/ HasInstance (arg info 0) = false
          \/ HasInstance (arg info 1) = false
          \/ HasInstance (arg info 2) = false
          \/ arg info 3 = Other))
    /\ (outcome_of (run h (Decrypt uninit_byte uninit_int info) w)
        = Throws Decrypt_arguments_message
        <-> ((length info < 5)%nat
             \/ HasInstance (arg info 0) = false
             \/ HasInstance (arg info 1) = false
             \/ HasInstance (arg info 2) = false
             \/ arg info 3 = Other
             \/ HasInstance (arg info 4) = false
             \/ Length (arg info 4) <> 16)).
Proof.
  intros ub ui World h w info. split.
  - assert (B : Encrypt_bad_arguments info = true
                <-> ((length info < 4)%nat
                     \/ HasInstance (arg info 0) = false
                     \/ HasInstance (arg info 1) = false
                     \/ HasInstance (arg info 2) = false
                     \/ arg info 3 = Other)).
    { unfold Encrypt_bad_arguments.
      rewrite !orb_true_iff, !negb_true_iff, Z.ltb_lt.
      destruct (arg info 3); cbn; intuition (try lia; try discriminate). }
    rewrite <- B. unfold Encrypt.
    destruct (Encrypt_bad_arguments info); [now split|].
    split; [|discriminate].
    destruct (cipher_type_of _); [|discriminate].
    destruct (HasInstance (arg info 3)); exec h; discriminate.
  - assert (B : Decrypt_bad_arguments info = true
                <-> ((length info < 5)%nat
                     \/ HasInstance (arg info 0) = false
                     \/ HasInstance (arg info 1) = false
                     \/ HasInstance (arg info 2) = false
                     \/ arg info 3 = Other
                     \/ HasInstance (arg info 4) = false
                     \/ Length (arg info 4) <> 16)).
    { unfold Decrypt_bad_arguments, AUTH_TAG_LEN.
      rewrite !orb_true_iff, !negb_true_iff, Z.ltb_lt, Z.eqb_neq.
      destruct (arg info 3); cbn; intuition (try lia; try discriminate). }
    rewrite <- B. unfold Decrypt.
    destruct (Decrypt_bad_arguments info); [now split|].
    split; [|discriminate].
    destruct (cipher_type_of _); [|discriminate].
    destruct (HasInstance (arg info 3)); exec h; discriminate.
Qed.

Lemma argument_errors_characterised_witness :
  let info := [Buffer (Toy.zeros 16); Buffer (Toy.zeros 12); Buffer Toy.hello; Other] in
  arg info 3 = Other
  /\ outcome_of (run Toy.evp (Encrypt x00 0 info) Reference.initial)
     = Throws Encrypt_arguments_message.
Proof.
  intros info. split; [reflexivity|].
  apply (proj1 (argument_errors_characterised x00 0 _ Toy.evp Reference.initial info)).
  do 4 right. reflexivity.
Defined.

(** ** What is handed to the primitive *)

(** X3.  Binding.  After the allocation the next three calls of a call that
    passes the checks select the cipher by the key length (16, 24 and 32
    bytes give AES-128, AES-192 and AES-256 in GCM mode), announce the length
    of the IV buffer, whatever it is, and hand over the key bytes and the
    data pointer of the IV buffer: the IV bytes unchanged, or [NULL] when
    the IV buffer is empty.  Encrypt and decrypt select the same cipher for
    the same key. *)
Theorem binding_calls :
  forall (uninit_byte : byte) (uninit_int : Z) (World : Type)
         (h : Handler World) (w : World) (info : list Value),
    valid_key_len (Length (arg info 0)) ->
    Length (arg info 1) <= INT_MAX ->
    exists c,
      (Length (arg info 0) = 16 -> c = aes_128_gcm)
      /\ (Length (arg info 0) = 24 -> c = aes_192_gcm)
      /\ (Length (arg info 0) = 32 -> c = aes_256_gcm)
      /\ (Encrypt_bad_arguments info = false ->
          exists ctx,
            firstn 4 (calls_of (run h (Encrypt uninit_byte uninit_int info) w))
            = [EVP_CIPHER_CTX_new;
               EVP_EncryptInit_ex ctx (Some c) None None;
               EVP_CIPHER_CTX_ctrl ctx EVP_CTRL_GCM_SET_IVLEN (Length (arg info 1)) None;
               EVP_EncryptInit_ex ctx None (Some (Data (arg info 0)))
                 (DataPointer (arg info 1))])
      /\ (Decrypt_bad_arguments info = false ->
          exists ctx,
            firstn 4 (calls_of (run h (Decrypt uninit_byte uninit_int info) w))
            = [EVP_CIPHER_CTX_new;
               EVP_DecryptInit_ex ctx (Some c) None None;
               EVP_CIPHER_CTX_ctrl ctx EVP_CTRL_GCM_SET_IVLEN (Length (arg info 1)) None;
               EVP_DecryptInit_ex ctx None (Some (Data (arg info 0)))
                 (DataPointer (arg info 1))])
      /\ (Data (arg info 1) = [] -> DataPointer (arg info 1) = None)
      /\ (Data (arg info 1) <> [] ->
          DataPointer (arg info 1) = Some (Data (arg info 1))).
Proof.
  intros ub ui World h w info Hk Hiv.
  assert (Hiv' : to_int (Length (arg info 1)) = Length (arg info 1)).
  { apply to_int_small. split; [apply len_nonneg | exact Hiv]. }
  assert (Hc : exists c, cipher_type_of (Length (arg info 0)) = Some c
                         /\ (Length (arg info 0) = 16 -> c = aes_128_gcm)
                         /\ (Length (arg info 0) = 24 -> c = aes_192_gcm)
                         /\ (Length (arg info 0) = 32 -> c = aes_256_gcm)).
  { destruct Hk as [E | [E | E]]; rewrite E; eexists; (split; [reflexivity|]);
      repeat split; intros; first [reflexivity | discriminate]. }
  destruct Hc as (c & Ec & H16 & H24 & H32). exists c.
  pose proof (ReferenceRuns.DataPointer_nonempty _ (ReferenceRuns.key_nonempty _ _ Ec))
    as Hkey.
  split; [exact H16|]. split; [exact H24|]. split; [exact H32|].
  split; [|split; [|split]].
  - intros Ha. unfold Encrypt. rewrite Ha, Ec, Hiv', Hkey.
    destruct (HasInstance (arg info 3)); exec h; eexists; reflexivity.
  - intros Ha. unfold Decrypt. rewrite Ha, Ec, Hiv', Hkey.
    destruct (HasInstance (arg info 3)); exec h; eexists; reflexivity.
  - unfold DataPointer. now intros ->.
  - apply ReferenceRuns.DataPointer_nonempty.
Qed.

Lemma binding_calls_witness :
  let info := [Buffer (repeat x2a 32); Buffer []; Buffer Toy.hello; Null;
               Buffer (Toy.zeros 16)] in
  valid_key_len (Length (arg info 0))
  /\ Length (arg info 1) <= INT_MAX
  /\ exists ctx,
       firstn 4 (calls_of (run Toy.evp (Encrypt x00 0 info) Reference.initial))
       = [EVP_CIPHER_CTX_new;
          EVP_EncryptInit_ex ctx (Some aes_256_gcm) None None;
          EVP_CIPHER_CTX_ctrl ctx EVP_CTRL_GCM_SET_IVLEN 0 None;
          EVP_EncryptInit_ex ctx None (Some (repeat x2a 32)) None].
Proof.
  intros info.
  assert (Hk : valid_key_len (Length (arg info 0))) by (right; right; reflexivity).
  assert (Hiv : Length (arg info 1) <= INT_MAX) by (cbv; discriminate).
  split; [exact Hk|]. split; [exact Hiv|].
  destruct (binding_calls x00 0 _ Toy.evp Reference.initial info Hk Hiv)
    as (c & _ & _ & H32 & He & _).
  rewrite <- (H32 eq_refl). exact (He eq_refl).
Defined.

(** X4.  Life of the context.  A call that returns a result allocates one
    context as its first call and frees that same context as its last; every
    call in between is made on the pointer the allocation returned, which is
    never tested, so a failed allocation sends [NULL] through all of them. *)
Theorem context_allocated_once_and_freed_last :
  forall (uninit_byte : byte) (uninit_int : Z) (World : Type)
         (h : Handler World) (w : World) (info : list Value),
    let e := run h (Encrypt uninit_byte uninit_int info) w in
    let d := run h (Decrypt uninit_byte uninit_int info) w in
    (forall v, outcome_of e = Returns v ->
       exists r0,
         hd_error (trace_of e) = Some (EVP_CIPHER_CTX_new, r0)
         /\ last (calls_of e) EVP_CIPHER_CTX_new = EVP_CIPHER_CTX_free (ret r0)
         /\ Forall (fun c => ctx_of c = Some (ret r0)) (tl (calls_of e))
         /\ length (filter is_new (calls_of e)) = 1%nat
         /\ length (filter is_free (calls_of e)) = 1%nat)
    /\ (forall v, outcome_of d = Returns v ->
          exists r0,
            hd_error (trace_of d) = Some (EVP_CIPHER_CTX_new, r0)
            /\ last (calls_of d) EVP_CIPHER_CTX_new = EVP_CIPHER_CTX_free (ret r0)
            /\ Forall (fun c => ctx_of c = Some (ret r0)) (tl (calls_of d))
            /\ length (filter is_new (calls_of d)) = 1%nat
            /\ length (filter is_free (calls_of d)) = 1%nat).
Proof.
  intros ub ui World h w info e d. subst e d. split; intros v.
  - unfold Encrypt. destruct (Encrypt_bad_arguments info); [discriminate|].
    destruct (cipher_type_of _); [|discriminate].
    destruct (HasInstance (arg info 3)); exec h; try discriminate;
      intros _; eexists; repeat split; repeat constructor.
  - unfold Decrypt. destruct (Decrypt_bad_arguments info); [discriminate|].
    destruct (cipher_type_of _); [|discriminate].
    destruct (HasInstance (arg info 3)); exec h; try discriminate;
      intros _; eexists; repeat split; repeat constructor.
Qed.

Lemma context_allocated_once_and_freed_last_witness :
  let info := [Buffer (Toy.zeros 16); Buffer (Toy.zeros 12); Buffer Toy.hello; Null] in
  let e := run Toy.broken (Encrypt x00 0 info) tt in
  exists r0,
    hd_error (trace_of e) = Some (EVP_CIPHER_CTX_new, r0)
    /\ last (calls_of e) EVP_CIPHER_CTX_new = EVP_CIPHER_CTX_free (ret r0)
    /\ Forall (fun c => ctx_of c = Some (ret r0)) (tl (calls_of e))
    /\ length (filter is_new (calls_of e)) = 1%nat
    /\ length (filter is_free (calls_of e)) = 1%nat.
Proof.
  intros info e.
  exact (proj1 (context_allocated_once_and_freed_last x00 0 _ Toy.broken tt info)
           _ eq_refl).
Defined.

(** ** Memory *)

Lemma store_at_start_inv (buf bs mem : bytes) :
  store buf 0 bs = Some mem ->
  mem = bs ++ skipn (length bs) buf /\ len bs <= len buf.
Proof.
  unfold store. cbn [Z.leb Z.compare andb].
  destruct (Z.leb_spec (0 + len bs) (len buf)) as [H | H]; [|discriminate].
  intros [= <-]. split; [reflexivity | lia].
Qed.

Lemma CopyBuffer_whole (buf res : bytes) :
  CopyBuffer buf (len buf) = Some res -> res = buf.
Proof.
  unfold CopyBuffer. rewrite Z.leb_refl. intros [= <-].
  unfold len. rewrite Nat2Z.id. apply firstn_all.
Qed.

(** X5.  The returned tag is the content of the fresh 16-byte allocation
    overwritten from its start by what the tag query wrote.  The status of
    the query is not tested: when it writes nothing, encrypt returns the 16
    bytes of uninitialised memory as the tag. *)
Theorem returned_tag_is_query_output_over_fresh_memory :
  forall (uninit_byte : byte) (uninit_int : Z) (World : Type)
         (h : Handler World) (w : World) (info : list Value) v,
    outcome_of (run h (Encrypt uninit_byte uninit_int info) w) = Returns v ->
    exists ctx r,
      In (EVP_CIPHER_CTX_ctrl ctx EVP_CTRL_GCM_GET_TAG AUTH_TAG_LEN
            (Some (new_uchar uninit_byte AUTH_TAG_LEN)), r)
         (trace_of (run h (Encrypt uninit_byte uninit_int info) w))
      /\ auth_tag v
         = out_store r ++ skipn (length (out_store r)) (repeat uninit_byte 16)
      /\ (out_store r = [] -> auth_tag v = repeat uninit_byte 16).
Proof.
  intros ub ui World h w info v. unfold Encrypt.
  destruct (Encrypt_bad_arguments info); [discriminate|].
  destruct (cipher_type_of _); [|discriminate].
  destruct (HasInstance (arg info 3)); exec h; try discriminate;
    intros [= <-]; eexists _, _; (split; [find_in|]); cbn [auth_tag];
    match goal with
    | S : store (new_uchar ub AUTH_TAG_LEN) 0 _ = Some ?m,
      C : CopyBuffer ?m AUTH_TAG_LEN = Some _ |- _ =>
        apply store_at_start_inv in S; destruct S as [S L];
        assert (E : len m = AUTH_TAG_LEN)
          by (rewrite S, ReferenceRuns.len_stored_prefix by exact L;
              now apply len_new_uchar);
        rewrite <- E in C; apply CopyBuffer_whole in C; subst
    end;
    (split; [reflexivity|]); intros ->; reflexivity.
Qed.

Lemma returned_tag_is_query_output_over_fresh_memory_witness :
  let info := [Buffer (Toy.zeros 16); Buffer (Toy.zeros 12); Buffer Toy.hello; Null] in
  let e := run Toy.broken (Encrypt x5a 0 info) tt in
  outcome_of e = Returns (mkEncryptResult [] (repeat x5a 16))
  /\ exists ctx r,
       In (EVP_CIPHER_CTX_ctrl ctx EVP_CTRL_GCM_GET_TAG AUTH_TAG_LEN
             (Some (new_uchar x5a AUTH_TAG_LEN)), r) (trace_of e)
       /\ auth_tag (mkEncryptResult [] (repeat x5a 16))
          = out_store r ++ skipn (length (out_store r)) (repeat x5a 16)
       /\ (out_store r = [] ->
           auth_tag (mkEncryptResult [] (repeat x5a 16)) = repeat x5a 16).
Proof.
  intros info e.
  assert (H : outcome_of e = Returns (mkEncryptResult [] (repeat x5a 16)))
    by reflexivity.
  split; [exact H|].
  exact (returned_tag_is_query_output_over_fresh_memory x5a 0 _ Toy.broken tt info _ H).
Defined.

(** ** Lengths at the interface *)

(** X6.  Buffer lengths are [size_t] values handed to [int] parameters.  For
    a primary buffer of 2^31 up to 2^32 - 1 bytes the data update receives
    the negative length [len - 2^32], in encrypt and in decrypt. *)
Theorem long_input_length_turns_negative :
  forall (uninit_byte : byte) (uninit_int : Z) (World : Type)
         (h : Handler World) (w : World) (info : list Value),
    valid_key_len (Length (arg info 0)) ->
    2 ^ 31 <= Length (arg info 2) < 2 ^ 32 ->
    Length (arg info 2) - 2 ^ 32 < 0
    /\ (Encrypt_bad_arguments info = false ->
        exists ctx,
          In (EVP_EncryptUpdate ctx OutBuf (Data (arg info 2))
                (Length (arg info 2) - 2 ^ 32))
             (calls_of (run h (Encrypt uninit_byte uninit_int info) w)))
    /\ (Decrypt_bad_arguments info = false ->
        exists ctx,
          In (EVP_DecryptUpdate ctx OutBuf (Data (arg info 2))
                (Length (arg info 2) - 2 ^ 32))
             (calls_of (run h (Decrypt uninit_byte uninit_int info) w))).
Proof.
  intros ub ui World h w info Hk Hn.
  apply cipher_type_of_valid in Hk.
  destruct (cipher_type_of _) as [c|] eqn:Ec; [clear Hk | now contradiction Hk].
  pose proof (to_int_wraps _ Hn) as Hw.
  split; [lia|]. split; intros Ha.
  - unfold Encrypt. rewrite Ha, Ec, Hw.
    destruct (HasInstance (arg info 3)); exec h; eexists; find_in.
  - unfold Decrypt. rewrite Ha, Ec, Hw.
    destruct (HasInstance (arg info 3)); exec h; eexists; find_in.
Qed.

Lemma long_input_length_turns_negative_witness :
  let long := repeat x00 (Z.to_nat (2 ^ 31)) in
  let info := [Buffer (Toy.zeros 16); Buffer (Toy.zeros 12); Buffer long; Null] in
  valid_key_len (Length (arg info 0))
  /\ 2 ^ 31 <= Length (arg info 2) < 2 ^ 32
  /\ Encrypt_bad_arguments info = false
  /\ exists ctx,
       In (EVP_EncryptUpdate ctx OutBuf (Data (arg info 2))
             (Length (arg info 2) - 2 ^ 32))
          (calls_of (run Toy.broken (Encrypt x00 0 info) tt)).
Proof.
  intros long info.
  assert (Hk : valid_key_len (Length (arg info 0))) by (left; reflexivity).
  assert (Hn : 2 ^ 31 <= Length (arg info 2) < 2 ^ 32).
  { change (Length (arg info 2)) with (Z.of_nat (length long)).
    unfold long. rewrite repeat_length, Z2Nat.id by discriminate.
    split; [apply Z.le_refl | reflexivity]. }
  assert (Ha : Encrypt_bad_arguments info = false) by reflexivity.
  split; [exact Hk|]. split; [exact Hn|]. split; [exact Ha|].
  exact (proj1 (proj2 (long_input_length_turns_negative x00 0 _ Toy.broken tt info
                         Hk Hn)) Ha).
Defined.

(** ** No access out of bounds on a primitive that reports what it writes *)

Lemma store_in_bounds (buf bs : bytes) (off : Z) :
  0 <= off -> off + len bs <= len buf ->
  exists mem, store buf off bs = Some mem /\ len mem = len buf.
Proof.
  intros H0 H1. unfold store.
  replace (0 <=? off) with true by (symmetry; now apply Z.leb_le).
  replace (off + len bs <=? len buf) with true by (symmetry; now apply Z.leb_le).
  cbn [andb]. eexists. split; [reflexivity|].
  unfold len in *. rewrite !length_app, length_firstn, length_skipn. lia.
Qed.

Lemma CopyBuffer_in_bounds (buf : bytes) (n : Z) :
  n <= len buf -> exists res, CopyBuffer buf n = Some res.
Proof.
  intros H. unfold CopyBuffer.
  replace (n <=? len buf) with true by (symmetry; now apply Z.leb_le).
  eexists. reflexivity.
Qed.

(** Answer the next call of the run, naming the answer [r], and keep what
    the primitive's contract [Hc] says about it as [P]. *)
Ltac contract_call h Hc r P :=
  match goal with
  | |- context [h ?c ?w] =>
      pose proof (Hc c w) as P;
      destruct (h c w) as [r ?w] eqn:?E;
      cbv beta iota zeta delta [fst] in P;
      cbn [run bind call outcome_of fst snd]
  end.

(** The next store of the run stays inside its buffer: two side conditions,
    then the run goes on with the new content [m] of length [L]. *)
Ltac store_step m L :=
  match goal with
  | |- context [match store ?b ?o ?bs with _ => _ end] =>
      let S := fresh "S" in
      destruct (store_in_bounds b bs o) as (m & S & L);
      [ | | rewrite S; cbn [run bind call outcome_of fst snd] ]
  end.

(** X7.  On a primitive that reports what it writes, and for buffers whose
    lengths fit an [int], neither method reads or writes outside the memory
    it allocated, whatever the arguments: the rounded-up output buffer holds
    everything the update writes, the empty plaintext included, the
    finalization pointer stays inside it, and the copies into the returned
    buffers stay inside the allocations. *)
Theorem no_access_out_of_bounds :
  forall (World : Type) (h : Handler World),
    reports_what_it_writes h ->
    forall (uninit_byte : byte) (uninit_int : Z) (w : World) (info : list Value),
      buffers_fit_int info ->
      outcome_of (run h (Encrypt uninit_byte uninit_int info) w) <> Fault
      /\ outcome_of (run h (Decrypt uninit_byte uninit_int info) w) <> Fault.
Proof.
  intros World h contract ub ui w info Hfit.
  pose proof (ReferenceRuns.fit_arg info 2 Hfit) as Hp.
  split.
  - unfold Encrypt. destruct (Encrypt_bad_arguments info); [discriminate|].
    destruct (cipher_type_of _) as [c|] eqn:Ec; [|discriminate].
    pose proof (Encrypt_ciphertext_len_ge _ _ (cipher_type_of_Some _ _ Ec) Hp)
      as Hsize.
    set (alloc := Encrypt_ciphertext_len _ _) in *.
    rewrite (to_int_small (Length (arg info 2))) by exact Hp.
    cbn [run bind call outcome_of fst snd].
    contract_call h contract r0 P0. contract_call h contract r1 P1.
    contract_call h contract r2 P2. contract_call h contract r3 P3.
    destruct (HasInstance (arg info 3));
      cbn [run bind call outcome_of fst snd];
      [contract_call h contract ra Pa | ];
      contract_call h contract ru Pu; destruct Pu as [Po Pl];
      rewrite (stored_Some _ _ _ Po);
      pose proof (len_nonneg (out_store ru)) as Hw;
      (store_step m1 L1; [lia | rewrite len_new_uchar; lia |]);
      rewrite len_new_uchar in L1 by lia;
      contract_call h contract rf Pf; destruct Pf as [Pfo Pfl]; rewrite Pfl;
      rewrite (stored_Some _ _ _ Pfo);
      (store_step m2 L2; [lia | change (len []) with 0; lia |]);
      contract_call h contract rt Pt; unfold AUTH_TAG_LEN in Pt |- *;
      (store_step m3 L3; [lia | rewrite len_new_uchar by discriminate; lia |]);
      rewrite len_new_uchar in L3 by discriminate;
      contract_call h contract re Pe;
      rewrite reported_total by (unfold INT_MAX in Hp; lia);
      (destruct (CopyBuffer_in_bounds m2 (len (out_store ru) + 0)) as [b Hb]; [lia|]);
      (destruct (CopyBuffer_in_bounds m3 16) as [t Ht]; [lia|]);
      rewrite Hb, Ht; discriminate.
  - unfold Decrypt. destruct (Decrypt_bad_arguments info); [discriminate|].
    destruct (cipher_type_of _) as [c|] eqn:Ec; [|discriminate].
    pose proof (Decrypt_plaintext_len_ge _ Hp) as Hsize.
    set (alloc := Decrypt_plaintext_len _) in *.
    rewrite (to_int_small (Length (arg info 2))) by exact Hp.
    cbn [run bind call outcome_of fst snd].
    contract_call h contract r0 P0. contract_call h contract r1 P1.
    contract_call h contract r2 P2. contract_call h contract r3 P3.
    destruct (HasInstance (arg info 3));
      cbn [run bind call outcome_of fst snd];
      [contract_call h contract ra Pa | ];
      contract_call h contract ru Pu; destruct Pu as [Po Pl];
      rewrite (stored_Some _ _ _ Po);
      pose proof (len_nonneg (out_store ru)) as Hw;
      (store_step m1 L1; [lia | rewrite len_new_uchar; lia |]);
      rewrite len_new_uchar in L1 by lia;
      contract_call h contract rs Ps;
      contract_call h contract rf Pf; destruct Pf as [Pfo Pfl]; rewrite Pfl;
      rewrite (stored_Some _ _ _ Pfo);
      (store_step m2 L2; [lia | change (len []) with 0; lia |]);
      contract_call h contract re Pe;
      rewrite reported_total by (unfold INT_MAX in Hp; lia);
      (destruct (CopyBuffer_in_bounds m2 (len (out_store ru) + 0)) as [b Hb]; [lia|]);
      rewrite Hb; discriminate.
Qed.

Lemma echo_reports_what_it_writes : reports_what_it_writes echo.
Proof.
  intros c w. destruct c as [| | |ctx t a p|ctx o inp n|ctx o inp n| | |];
    cbn; try exact I; try (split; reflexivity).
  - destruct t; cbn; try exact I.
    unfold len. rewrite repeat_length. lia.
  - destruct o; cbn; [exact I|]. split; [reflexivity|].
    unfold len. rewrite length_firstn. lia.
  - destruct o; cbn; [exact I|]. split; [reflexivity|].
    unfold len. rewrite length_firstn. lia.
Qed.

Lemma no_access_out_of_bounds_witness :
  let info := [Buffer (repeat x2a 24); Buffer (Toy.zeros 12); Buffer []; Buffer [x61];
               Buffer (Toy.zeros 16)] in
  reports_what_it_writes echo
  /\ buffers_fit_int info
  /\ outcome_of (run echo (Encrypt x00 0 info) tt) <> Fault
  /\ outcome_of (run echo (Decrypt x00 0 info) tt) <> Fault.
Proof.
  intros info.
  assert (Hfit : buffers_fit_int info) by (repeat constructor; cbv; discriminate).
  split; [exact echo_reports_what_it_writes|]. split; [exact Hfit|].
  exact (no_access_out_of_bounds unit echo echo_reports_what_it_writes
           x00 0 tt info Hfit).
Defined.

(** ** The uninitialised output length *)

Lemma store_nothing_inv (buf mem : bytes) (off : Z) :
  store buf off [] = Some mem -> mem = buf.
Proof.
  unfold store. destruct (_ && _); [|discriminate]. intros [= <-].
  cbn [app length]. now rewrite Nat.add_0_r, firstn_skipn.
Qed.

Lemma store_nothing_exactly (buf : bytes) (off : Z) :
  store buf off [] = if (0 <=? off) && (off <=? len buf) then Some buf else None.
Proof.
  unfold store. change (len []) with 0. rewrite Z.add_0_r.
  destruct ((0 <=? off) && (off <=? len buf)); [|reflexivity].
  cbn [app length]. now rewrite Nat.add_0_r, firstn_skipn.
Qed.

Lemma allocation_nonneg (z : Z) : 0 <= to_size_t z.
Proof. unfold to_size_t. apply Z.mod_pos_bound. reflexivity. Qed.

Lemma Encrypt_ciphertext_len_nonneg (key_len n : Z) :
  0 <= Encrypt_ciphertext_len key_len n.
Proof. apply allocation_nonneg. Qed.

Lemma Decrypt_plaintext_len_nonneg (n : Z) : 0 <= Decrypt_plaintext_len n.
Proof. apply allocation_nonneg. Qed.

(** Answer the next call of a primitive that writes nothing. *)
Ltac silent_call h Hw :=
  match goal with
  | |- context [h ?c ?w] =>
      let r := fresh "r" in
      let O := fresh "O" in
      let W := fresh "W" in
      destruct (Hw c w) as [O W];
      destruct (h c w) as [r ?w];
      cbv beta iota zeta delta [fst] in O, W;
      unfold stored; rewrite ?O, ?W;
      cbn [run bind call outcome_of fst snd]
  end.

(** X8.  [int outl] is declared without a value and only the primitive
    assigns it.  On a primitive none of whose calls stores an output length
    or writes a byte, which is how failing calls behave, the result of a
    call that passes the checks is computed from the uninitialised [outl]
    alone.  Provided [outl] is between 0 and the size of the output
    allocation, and the length computed from it (twice [outl], as a
    [uint32_t]) is not beyond that size either, the call returns that many
    bytes of the uninitialised allocation, with 16 uninitialised bytes for a
    tag in encrypt; otherwise the finalization pointer or the copy into the
    returned buffer leaves the allocation. *)
Theorem silent_update_exposes_uninitialised_length :
  forall (uninit_byte : byte) (uninit_int : Z) (World : Type)
         (h : Handler World) (w : World) (info : list Value),
    writes_nothing h ->
    valid_key_len (Length (arg info 0)) ->
    let n := to_uint32 (size_add (to_size_t uninit_int) uninit_int) in
    (Encrypt_bad_arguments info = false ->
     let size := Encrypt_ciphertext_len (Length (arg info 0)) (Length (arg info 2)) in
     outcome_of (run h (Encrypt uninit_byte uninit_int info) w)
     = if (0 <=? uninit_int) && (uninit_int <=? size) && (n <=? size)
       then Returns (mkEncryptResult
                       (firstn (Z.to_nat n) (new_uchar uninit_byte size))
                       (new_uchar uninit_byte 16))
       else Fault)
    /\ (Decrypt_bad_arguments info = false ->
        let size := Decrypt_plaintext_len (Length (arg info 2)) in
        plaintext_of (outcome_of (run h (Decrypt uninit_byte uninit_int info) w))
        = if (0 <=? uninit_int) && (uninit_int <=? size) && (n <=? size)
          then Returns (firstn (Z.to_nat n) (new_uchar uninit_byte size))
          else Fault).
Proof.
  intros ub ui World h w info Hw Hk n.
  apply cipher_type_of_valid in Hk.
  destruct (cipher_type_of _) as [c|] eqn:Ec; [clear Hk | now contradiction Hk].
  split; intros Ha size.
  - pose proof (Encrypt_ciphertext_len_nonneg (Length (arg info 0))
                  (Length (arg info 2))) as Hsize.
    fold size in Hsize.
    assert (Hlen : len (new_uchar ub size) = size) by now apply len_new_uchar.
    unfold Encrypt. rewrite Ha, Ec. fold size.
    cbn [run bind call outcome_of fst snd].
    do 4 silent_call h Hw.
    destruct (HasInstance (arg info 3));
      cbn [run bind call outcome_of fst snd];
      [silent_call h Hw | ];
      silent_call h Hw;
      rewrite (store_nothing (new_uchar ub size) 0) by lia;
      cbn [run bind call outcome_of fst snd];
      silent_call h Hw;
      rewrite store_nothing_exactly, Hlen;
      (destruct ((0 <=? ui) && (ui <=? size)); [|reflexivity]);
      cbn [run bind call outcome_of fst snd andb];
      silent_call h Hw;
      rewrite (store_nothing (new_uchar ub AUTH_TAG_LEN) 0)
        by (rewrite len_new_uchar; unfold AUTH_TAG_LEN; lia);
      cbn [run bind call outcome_of fst snd];
      silent_call h Hw;
      fold n; unfold CopyBuffer at 1; rewrite Hlen;
      (destruct (n <=? size); [|reflexivity]);
      rewrite ReferenceRuns.CopyBuffer_all by (now apply len_new_uchar);
      reflexivity.
  - pose proof (Decrypt_plaintext_len_nonneg (Length (arg info 2))) as Hsize.
    fold size in Hsize.
    assert (Hlen : len (new_uchar ub size) = size) by now apply len_new_uchar.
    unfold Decrypt. rewrite Ha, Ec. fold size.
    cbn [run bind call outcome_of fst snd].
    do 4 silent_call h Hw.
    destruct (HasInstance (arg info 3));
      cbn [run bind call outcome_of fst snd];
      [silent_call h Hw | ];
      silent_call h Hw;
      rewrite (store_nothing (new_uchar ub size) 0) by lia;
      cbn [run bind call outcome_of fst snd];
      silent_call h Hw;
      silent_call h Hw;
      rewrite store_nothing_exactly, Hlen;
      (destruct ((0 <=? ui) && (ui <=? size)); [|reflexivity]);
      cbn [run bind call outcome_of fst snd andb];
      silent_call h Hw;
      fold n; unfold CopyBuffer; rewrite Hlen;
      (destruct (n <=? size); reflexivity).
Qed.

Lemma silent_writes_nothing : writes_nothing silent.
Proof. intros c w. split; reflexivity. Qed.

Lemma silent_update_exposes_uninitialised_length_witness :
  let info := [Buffer (Toy.zeros 16); Buffer (Toy.zeros 12); Buffer Toy.hello; Null] in
  writes_nothing silent
  /\ valid_key_len (Length (arg info 0))
  /\ Encrypt_bad_arguments info = false
  /\ outcome_of (run silent (Encrypt x5a 5 info) tt)
     = Returns (mkEncryptResult (repeat x5a 10) (repeat x5a 16))
  /\ outcome_of (run silent (Encrypt x5a 9 info) tt) = Fault.
Proof.
  intros info.
  assert (Hk : valid_key_len (Length (arg info 0))) by (left; reflexivity).
  assert (Ha : Encrypt_bad_arguments info = false) by reflexivity.
  split; [exact silent_writes_nothing|]. split; [exact Hk|]. split; [exact Ha|].
  split.
  - exact (proj1 (silent_update_exposes_uninitialised_length x5a 5 _ silent tt info
                    silent_writes_nothing Hk) Ha).
  - exact (proj1 (silent_update_exposes_uninitialised_length x5a 9 _ silent tt info
                    silent_writes_nothing Hk) Ha).
Defined.

(** ** More about seal and open on the reference primitive *)

Lemma bytes_eqb_eq (a b : bytes) : bytes_eqb a b = true <-> a = b.
Proof.
  split; [|intros ->; apply bytes_eqb_refl].
  revert b. induction a as [|x a IH]; intros [|y b]; cbn; try discriminate;
    [reflexivity|].
  intros H. apply andb_true_iff in H. destruct H as [Hx Ha].
  apply Byte.byte_dec_bl in Hx. f_equal; auto.
Qed.

Lemma fresh_tag_fully_written (ub : byte) (m : bytes) :
  length m = 16%nat ->
  firstn 16 m ++ skipn (length (firstn 16 m)) (new_uchar ub 16) = m.
Proof.
  intros H. rewrite firstn_all2 by lia. rewrite skipn_all2, app_nil_r; [reflexivity|].
  unfold new_uchar. rewrite repeat_length, H. reflexivity.
Qed.

Section ReferencePrimitiveMore.

Variable crypt : Cipher -> bytes -> bytes -> nat -> bytes -> bytes.
Variable mac : Cipher -> bytes -> bytes -> bytes -> bytes -> bytes.

Hypothesis crypt_length :
  forall c k iv off x, length (crypt c k iv off x) = length x.
Hypothesis crypt_involutive :
  forall c k iv off x, crypt c k iv off (crypt c k iv off x) = x.
Hypothesis mac_length :
  forall c k iv aad text, length (mac c k iv aad text) = 16%nat.

(** X9.  On the reference primitive, when the IV is not empty and the
    primary buffer has at most [INT_MAX] bytes, the result of a call is a
    function of the bytes of its arguments alone, an absent associated-data
    argument counting as no bytes: two calls whose arguments carry the same
    bytes return the same result, whatever contexts the primitive holds and
    whatever the uninitialised memory contains.  In particular null and a
    zero-length buffer as associated data give the same ciphertext and tag,
    although they make different calls. *)
Theorem result_depends_on_argument_bytes_only :
  forall (uninit_byte uninit_byte' : byte) (uninit_int uninit_int' : Z)
         (w w' : Reference.World) (info info' : list Value),
    valid_key_len (Length (arg info 0)) ->
    Data (arg info 1) <> [] ->
    Length (arg info 2) <= INT_MAX ->
    (forall i, Data (arg info i) = Data (arg info' i)) ->
    (Encrypt_bad_arguments info = false -> Encrypt_bad_arguments info' = false ->
     outcome_of (run (Reference.evp crypt mac) (Encrypt uninit_byte uninit_int info) w)
     = outcome_of (run (Reference.evp crypt mac)
                     (Encrypt uninit_byte' uninit_int' info') w'))
    /\ (Decrypt_bad_arguments info = false -> Decrypt_bad_arguments info' = false ->
        outcome_of (run (Reference.evp crypt mac) (Decrypt uninit_byte uninit_int info) w)
        = outcome_of (run (Reference.evp crypt mac)
                        (Decrypt uninit_byte' uninit_int' info') w')).
Proof.
  intros ub ub' ui ui' w w' info info' Hk Hiv Hfit Hsame.
  apply cipher_type_of_valid in Hk.
  destruct (cipher_type_of (Length (arg info 0))) as [c|] eqn:Hc;
    [clear Hk | now contradiction Hk].
  assert (Hc' : cipher_type_of (Length (arg info' 0)) = Some c)
    by (unfold Length; rewrite <- Hsame; exact Hc).
  assert (Hiv' : Data (arg info' 1) <> []) by (rewrite <- Hsame; exact Hiv).
  assert (Hfit' : Length (arg info' 2) <= INT_MAX)
    by (unfold Length; rewrite <- Hsame; exact Hfit).
  assert (Haad : absorbed_aad (arg info' 3) = absorbed_aad (arg info 3)).
  { pose proof (Hsame 3%nat) as E3. unfold absorbed_aad, Length. rewrite <- E3.
    destruct (HasInstance (arg info 3)) eqn:H3, (HasInstance (arg info' 3)) eqn:H3';
      cbn [andb]; try reflexivity.
    - rewrite (ReferenceRuns.Data_without_instance _ H3') in E3. rewrite E3.
      rewrite firstn_nil. now destruct (0 <=? _).
    - rewrite (ReferenceRuns.Data_without_instance _ H3).
      rewrite firstn_nil. now destruct (0 <=? _). }
  split; intros Ha Ha'.
  - rewrite (ReferenceRuns.Encrypt_on_reference crypt mac crypt_length ub ui w info c)
      by assumption.
    rewrite (ReferenceRuns.Encrypt_on_reference crypt mac crypt_length ub' ui' w' info' c)
      by assumption.
    rewrite Haad, <- !Hsame. now rewrite !fresh_tag_fully_written by apply mac_length.
  - rewrite (ReferenceRuns.Decrypt_on_reference crypt mac crypt_length ub ui w info c)
      by assumption.
    rewrite (ReferenceRuns.Decrypt_on_reference crypt mac crypt_length ub' ui' w' info' c)
      by assumption.
    now rewrite Haad, <- !Hsame.
Qed.

(** X10.  On the reference primitive, for an IV that is not empty and a
    ciphertext of at most [INT_MAX] bytes, decrypt says [auth_ok = true] for
    exactly the tag that encrypt produces: for a call that passes the
    checks, the verdict is true if and only if encrypting the returned
    plaintext under the same key, IV and associated data returns the given
    ciphertext and the given tag. *)
Theorem verdict_true_exactly_for_sealed_output :
  forall (uninit_byte uninit_byte' : byte) (uninit_int uninit_int' : Z)
         (w w' : Reference.World) (key iv ct tag : bytes) (a : Value),
    valid_key_len (len key) ->
    IsUndefined a || IsNull a || HasInstance a = true ->
    len tag = 16 ->
    iv <> [] -> len ct <= INT_MAX ->
    exists pt ok,
      outcome_of (run (Reference.evp crypt mac)
                    (Decrypt uninit_byte uninit_int
                       [Buffer key; Buffer iv; Buffer ct; a; Buffer tag]) w)
      = Returns (mkDecryptResult pt ok)
      /\ (ok = true
          <-> outcome_of (run (Reference.evp crypt mac)
                            (Encrypt uninit_byte' uninit_int'
                               [Buffer key; Buffer iv; Buffer pt; a]) w')
              = Returns (mkEncryptResult ct tag)).
Proof.
  intros ub ub' ui ui' w w' key iv ct tag a Hk Ha Htag Hiv Hct.
  apply cipher_type_of_valid in Hk.
  destruct (cipher_type_of (len key)) as [c|] eqn:Hc; [clear Hk | now contradiction Hk].
  eexists _, _. split.
  - rewrite (ReferenceRuns.Decrypt_on_reference crypt mac crypt_length ub ui w _ c).
    + cbn [arg nth Data]. reflexivity.
    + unfold Decrypt_bad_arguments. cbn [arg nth HasInstance length negb orb].
      rewrite Ha. unfold Length. cbn [Data]. now rewrite Htag.
    + exact Hc.
    + exact Hiv.
    + exact Hct.
  - rewrite (ReferenceRuns.Encrypt_on_reference crypt mac crypt_length ub' ui' w' _ c).
    + cbn [arg nth Data]. rewrite crypt_involutive.
      rewrite fresh_tag_fully_written by apply mac_length.
      rewrite firstn_all2 by (rewrite mac_length; lia).
      rewrite bytes_eqb_eq. split; [intros ->; reflexivity | now intros [= ->]].
    + unfold Encrypt_bad_arguments. cbn [arg nth HasInstance length negb orb].
      now rewrite Ha.
    + exact Hc.
    + exact Hiv.
    + unfold Length, len. cbn [arg nth Data]. rewrite crypt_length. exact Hct.
Qed.

End ReferencePrimitiveMore.

Lemma result_depends_on_argument_bytes_only_witness :
  let info := [Buffer (repeat x2a 16); Buffer (Toy.zeros 12); Buffer Toy.hello; Null;
               Buffer (Toy.zeros 16)] in
  let info' := [Buffer (repeat x2a 16); Buffer (Toy.zeros 12); Buffer Toy.hello;
                Buffer []; Buffer (Toy.zeros 16); Other] in
  let w' := Reference.mkWorld 7 [(2%positive, Reference.fresh)] in
  valid_key_len (Length (arg info 0))
  /\ Data (arg info 1) <> []
  /\ Length (arg info 2) <= INT_MAX
  /\ (forall i, Data (arg info i) = Data (arg info' i))
  /\ outcome_of (run Toy.evp (Encrypt x00 0 info) Reference.initial)
     = outcome_of (run Toy.evp (Encrypt xff 9 info') w')
  /\ outcome_of (run Toy.evp (Decrypt x00 0 info) Reference.initial)
     = outcome_of (run Toy.evp (Decrypt xff 9 info') w').
Proof.
  intros info info' w'.
  assert (Hk : valid_key_len (Length (arg info 0))) by (left; reflexivity).
  assert (Hiv : Data (arg info 1) <> []) by discriminate.
  assert (Hfit : Length (arg info 2) <= INT_MAX) by (cbv; discriminate).
  assert (Hsame : forall i, Data (arg info i) = Data (arg info' i)).
  { intros i. do 6 (destruct i as [|i]; [reflexivity|]). now destruct i. }
  destruct (result_depends_on_argument_bytes_only Toy.crypt Toy.mac
              ToyLaws.crypt_length ToyLaws.mac_length x00 xff 0 9
              Reference.initial w' info info' Hk Hiv Hfit Hsame) as [He Hd].
  split; [exact Hk|]. split; [exact Hiv|]. split; [exact Hfit|].
  split; [exact Hsame|].
  split; [apply He; reflexivity | apply Hd; reflexivity].
Defined.

Lemma verdict_true_exactly_for_sealed_output_witness :
  let key := repeat x2a 16 in
  let iv := Toy.zeros 12 in
  let tag := Toy.zeros 16 in
  valid_key_len (len key)
  /\ IsUndefined Null || IsNull Null || HasInstance Null = true
  /\ len tag = 16
  /\ iv <> [] /\ len Toy.hello <= INT_MAX
  /\ exists pt ok,
       outcome_of (run Toy.evp (Decrypt x00 0
                                  [Buffer key; Buffer iv; Buffer Toy.hello; Null;
                                   Buffer tag]) Reference.initial)
       = Returns (mkDecryptResult pt ok)
       /\ (ok = true
           <-> outcome_of (run Toy.evp (Encrypt x00 0
                                          [Buffer key; Buffer iv; Buffer pt; Null])
                             Reference.initial)
               = Returns (mkEncryptResult Toy.hello tag)).
Proof.
  intros key iv tag.
  assert (Hk : valid_key_len (len key)) by (left; reflexivity).
  assert (Ha : IsUndefined Null || IsNull Null || HasInstance Null = true)
    by reflexivity.
  assert (Ht : len tag = 16) by reflexivity.
  assert (Hiv : iv <> []) by discriminate.
  assert (Hp : len Toy.hello <= INT_MAX) by (cbv; discriminate).
  split; [exact Hk|]. split; [exact Ha|]. split; [exact Ht|]. split; [exact Hiv|].
  split; [exact Hp|].
  exact (verdict_true_exactly_for_sealed_output Toy.crypt Toy.mac ToyLaws.crypt_length
           ToyLaws.crypt_involutive ToyLaws.mac_length x00 x00 0 0
           Reference.initial Reference.initial key iv Toy.hello tag Null
           Hk Ha Ht Hiv Hp).
Defined.

(** ** The primitive's contexts across a call *)

Module ReferenceFrame.

Import Reference.

Lemma find_remove_same (p : positive) (l : list (positive * Context)) :
  find p (remove p l) = None.
Proof.
  unfold remove. induction l as [|[q c] l IH]; [reflexivity|].
  cbn. destruct (Pos.eqb_spec p q) as [-> | N]; cbn; [exact IH|].
  destruct (Pos.eqb_spec p q); [contradiction | exact IH].
Qed.

Lemma find_remove_other (p q : positive) (l : list (positive * Context)) :
  q <> p -> find q (remove p l) = find q l.
Proof.
  intros N. unfold remove. induction l as [|[q' c] l IH]; [reflexivity|].
  cbn. destruct (Pos.eqb_spec p q') as [<- | N']; cbn.
  - destruct (Pos.eqb_spec q p); [contradiction | exact IH].
  - now rewrite IH.
Qed.

Lemma find_update_other (w : World) (ctx : Z) (c : Context) (q : positive) :
  ctx <> Zpos q -> find q (live (update w ctx c)) = find q (live w).
Proof.
  intros N. destruct ctx as [|p|p]; cbn; try reflexivity.
  destruct (Pos.eqb_spec q p) as [-> | N']; [now contradiction N|].
  now apply find_remove_other.
Qed.

Lemma find_release_other (w : World) (ctx : Z) (q : positive) :
  ctx <> Zpos q -> find q (live (release w ctx)) = find q (live w).
Proof.
  intros N. destruct ctx as [|p|p]; cbn; try reflexivity.
  apply find_remove_other. intros ->. now contradiction N.
Qed.

Section Frame.

Variable crypt : Cipher -> bytes -> bytes -> nat -> bytes -> bytes.
Variable mac : Cipher -> bytes -> bytes -> bytes -> bytes -> bytes.

(** A call made on one context leaves every other context as it was. *)
Lemma call_leaves_other_contexts (c : EVPCall) (w w' : World) (r : Response)
      (ctx : Z) (q : positive) :
  Reference.evp crypt mac c w = (r, w') ->
  ctx_of c = Some ctx -> ctx <> Zpos q ->
  find q (live w') = find q (live w).
Proof.
  intros E Hc N.
  destruct c; cbn in Hc; try discriminate; injection Hc as ->;
    cbn [Reference.evp] in E;
    unfold init, ctrl, update_call, final in E;
    repeat match type of E with
           | context [match ?x with _ => _ end] => destruct x
           end;
    injection E as <- <-;
    first [reflexivity | now apply find_update_other | now apply find_release_other].
Qed.

Lemma allocation_leaves_other_contexts (w w' : World) (r : Response) (q : positive) :
  Reference.evp crypt mac EVP_CIPHER_CTX_new w = (r, w') ->
  q <> next w ->
  ret r = Zpos (next w) /\ find q (live w') = find q (live w).
Proof.
  intros [= <- <-] N. split; [reflexivity|]. cbn.
  destruct (Pos.eqb_spec q (next w)); [contradiction | reflexivity].
Qed.

Lemma allocation_address (w w' : World) (r : Response) :
  Reference.evp crypt mac EVP_CIPHER_CTX_new w = (r, w') -> ret r = Zpos (next w).
Proof. now intros [= <- <-]. Qed.

Lemma free_removes_context (w w' : World) (r : Response) (p : positive) :
  Reference.evp crypt mac (EVP_CIPHER_CTX_free (Zpos p)) w = (r, w') ->
  find p (live w') = None.
Proof. intros [= <- <-]. cbn. apply find_remove_same. Qed.

End Frame.

End ReferenceFrame.

(** Every call of the run, the allocation apart, is made on the allocated
    context: contexts other than [q] keep their state. *)
Ltac frame_calls crypt mac q N :=
  match goal with
  | E : Reference.evp crypt mac EVP_CIPHER_CTX_new _ = _ |- _ =>
      let A := fresh "A" in
      pose proof (ReferenceFrame.allocation_address crypt mac _ _ _ E) as A;
      apply (ReferenceFrame.allocation_leaves_other_contexts crypt mac _ _ _ q) in E;
      [destruct E as [_ E] | exact N];
      repeat match goal with
             | E' : Reference.evp crypt mac _ _ = _ |- _ =>
                 eapply (ReferenceFrame.call_leaves_other_contexts crypt mac) with (q := q)
                   in E';
                 [ | reflexivity | rewrite A; intros [= <-]; now apply N ]
             end
  end.

Ltac freed crypt mac :=
  match goal with
  | E : Reference.evp crypt mac EVP_CIPHER_CTX_new _ = _,
    F : Reference.evp crypt mac (EVP_CIPHER_CTX_free _) _ = _ |- _ =>
      rewrite (ReferenceFrame.allocation_address crypt mac _ _ _ E) in F;
      now apply ReferenceFrame.free_removes_context in F
  end.

(** X11.  On the reference primitive, whatever its cipher and tag
    functions: a call of encrypt or decrypt leaves every context that the
    primitive held before the call exactly as it was, and when the call
    returns a result its own context has been released, so nothing of the
    call stays behind in the primitive. *)
Theorem other_contexts_untouched_own_context_released :
  forall (crypt : Cipher -> bytes -> bytes -> nat -> bytes -> bytes)
         (mac : Cipher -> bytes -> bytes -> bytes -> bytes -> bytes)
         (uninit_byte : byte) (uninit_int : Z) (w : Reference.World)
         (info : list Value),
    let e := run (Reference.evp crypt mac) (Encrypt uninit_byte uninit_int info) w in
    let d := run (Reference.evp crypt mac) (Decrypt uninit_byte uninit_int info) w in
    (forall q, q <> Reference.next w ->
       Reference.find q (Reference.live (world_of e))
       = Reference.find q (Reference.live w)
       /\ Reference.find q (Reference.live (world_of d))
          = Reference.find q (Reference.live w))
    /\ (forall v, outcome_of e = Returns v ->
          Reference.find (Reference.next w) (Reference.live (world_of e)) = None)
    /\ (forall v, outcome_of d = Returns v ->
          Reference.find (Reference.next w) (Reference.live (world_of d)) = None).
Proof.
  intros crypt mac ub ui w info e d. subst e d. repeat apply conj.
  - intros q N. split.
    + unfold Encrypt. destruct (Encrypt_bad_arguments info); [reflexivity|].
      destruct (cipher_type_of _); [|reflexivity].
      destruct (HasInstance (arg info 3)); exec (Reference.evp crypt mac);
        frame_calls crypt mac q N; congruence.
    + unfold Decrypt. destruct (Decrypt_bad_arguments info); [reflexivity|].
      destruct (cipher_type_of _); [|reflexivity].
      destruct (HasInstance (arg info 3)); exec (Reference.evp crypt mac);
        frame_calls crypt mac q N; congruence.
  - intros v. unfold Encrypt. destruct (Encrypt_bad_arguments info); [discriminate|].
    destruct (cipher_type_of _); [|discriminate].
    destruct (HasInstance (arg info 3)); exec (Reference.evp crypt mac);
      try discriminate; intros _; freed crypt mac.
  - intros v. unfold Decrypt. destruct (Decrypt_bad_arguments info); [discriminate|].
    destruct (cipher_type_of _); [|discriminate].
    destruct (HasInstance (arg info 3)); exec (Reference.evp crypt mac);
      try discriminate; intros _; freed crypt mac.
Qed.

Lemma other_contexts_untouched_own_context_released_witness :
  let busy := Reference.mkContext true (Some aes_128_gcm) 12 (Some (Toy.zeros 16))
                (Some (Toy.zeros 12)) [x61] [] false None in
  let w := Reference.mkWorld 5 [(3%positive, busy)] in
  let info := [Buffer (Toy.zeros 16); Buffer (Toy.zeros 12); Buffer Toy.hello; Null] in
  let e := run Toy.evp (Encrypt x00 0 info) w in
  3%positive <> Reference.next w
  /\ Reference.find 3 (Reference.live (world_of e)) = Some busy
  /\ Reference.find (Reference.next w) (Reference.live (world_of e)) = None.
Proof.
  intros busy w info e.
  assert (N : 3%positive <> Reference.next w) by discriminate.
  destruct (other_contexts_untouched_own_context_released Toy.crypt Toy.mac x00 0 w info)
    as (Hq & He & _).
  split; [exact N|]. split.
  - exact (proj1 (Hq 3%positive N)).
  - eapply He. reflexivity.
Defined.

(** ** What is returned on a primitive that reports what it writes *)

Lemma to_int_below (z : Z) : to_int z < 2 ^ 31.
Proof.
  unfold to_int. pose proof (Z.mod_pos_bound (z + 2 ^ 31) (2 ^ 32) eq_refl). lia.
Qed.

Ltac written_prefix Po Pl Pfo Pfl S1 S2 C :=
  rewrite (stored_Some _ _ _ Po) in *;
  rewrite Pfl in S2; rewrite (stored_Some _ _ _ Pfo) in C;
  apply store_at_start_inv in S1; destruct S1 as [S1 _];
  apply store_nothing_inv in S2; subst;
  rewrite reported_total, Z.add_0_r, CopyBuffer_prefix in C;
  [ now injection C as <-
  | apply len_nonneg
  | apply Z.le_refl
  | match goal with
    | |- len ?b + 0 < _ =>
        match type of Pl with
        | _ <= Z.max 0 (to_int ?z) => pose proof (to_int_below z); lia
        end
    end ].

(** X12.  On a primitive that reports what it writes, a call that returns
    gives back exactly the bytes the data update wrote: none of the padding
    of the rounded-up output buffer and none of its uninitialised content
    reaches the caller. *)
Theorem returned_bytes_are_the_bytes_written :
  forall (World : Type) (h : Handler World),
    reports_what_it_writes h ->
    forall (uninit_byte : byte) (uninit_int : Z) (w : World) (info : list Value),
      (forall v,
          outcome_of (run h (Encrypt uninit_byte uninit_int info) w) = Returns v ->
          exists ctx inp n r,
            In (EVP_EncryptUpdate ctx OutBuf inp n, r)
               (trace_of (run h (Encrypt uninit_byte uninit_int info) w))
            /\ ciphertext v = out_store r)
      /\ (forall v,
             outcome_of (run h (Decrypt uninit_byte uninit_int info) w) = Returns v ->
             exists ctx inp n r,
               In (EVP_DecryptUpdate ctx OutBuf inp n, r)
                  (trace_of (run h (Decrypt uninit_byte uninit_int info) w))
               /\ plaintext v = out_store r).
Proof.
  intros World h contract ub ui w info. split; intros v.
  - unfold Encrypt. destruct (Encrypt_bad_arguments info); [discriminate|].
    destruct (cipher_type_of _); [|discriminate].
    cbn [run bind call outcome_of trace_of fst snd].
    contract_call h contract r0 P0. contract_call h contract r1 P1.
    contract_call h contract r2 P2. contract_call h contract r3 P3.
    destruct (HasInstance (arg info 3));
      cbn [run bind call outcome_of trace_of fst snd];
      [contract_call h contract ra Pa | ];
      contract_call h contract ru Pu; destruct Pu as [Po Pl];
      (destruct (store _ 0 (out_store ru)) as [m1|] eqn:S1; [|discriminate]);
      cbn [run bind call outcome_of trace_of fst snd];
      contract_call h contract rf Pf; destruct Pf as [Pfo Pfl];
      (destruct (store m1 _ (out_store rf)) as [m2|] eqn:S2; [|discriminate]);
      cbn [run bind call outcome_of trace_of fst snd];
      contract_call h contract rt Pt;
      (destruct (store _ 0 (out_store rt)) as [m3|] eqn:S3; [|discriminate]);
      cbn [run bind call outcome_of trace_of fst snd];
      contract_call h contract re Pe;
      (destruct (CopyBuffer m2 _) as [b|] eqn:C; [|discriminate]);
      (destruct (CopyBuffer m3 _) as [t|]; [|discriminate]);
      cbn [run bind call outcome_of trace_of fst snd];
      intros [= <-]; eexists _, _, _, _; (split; [find_in|]); cbn [ciphertext];
      written_prefix Po Pl Pfo Pfl S1 S2 C.
  - unfold Decrypt. destruct (Decrypt_bad_arguments info); [discriminate|].
    destruct (cipher_type_of _); [|discriminate].
    cbn [run bind call outcome_of trace_of fst snd].
    contract_call h contract r0 P0. contract_call h contract r1 P1.
    contract_call h contract r2 P2. contract_call h contract r3 P3.
    destruct (HasInstance (arg info 3));
      cbn [run bind call outcome_of trace_of fst snd];
      [contract_call h contract ra Pa | ];
      contract_call h contract ru Pu; destruct Pu as [Po Pl];
      (destruct (store _ 0 (out_store ru)) as [m1|] eqn:S1; [|discriminate]);
      cbn [run bind call outcome_of trace_of fst snd];
      contract_call h contract rs Ps;
      contract_call h contract rf Pf; destruct Pf as [Pfo Pfl];
      (destruct (store m1 _ (out_store rf)) as [m2|] eqn:S2; [|discriminate]);
      cbn [run bind call outcome_of trace_of fst snd];
      contract_call h contract re Pe;
      (destruct (CopyBuffer m2 _) as [b|] eqn:C; [|discriminate]);
      cbn [run bind call outcome_of trace_of fst snd];
      intros [= <-]; eexists _, _, _, _; (split; [find_in|]); cbn [plaintext];
      written_prefix Po Pl Pfo Pfl S1 S2 C.
Qed.

Lemma returned_bytes_are_the_bytes_written_witness :
  let info := [Buffer (repeat x2a 24); Buffer (Toy.zeros 12); Buffer Toy.hello; Null] in
  let e := run echo (Encrypt x00 0 info) tt in
  reports_what_it_writes echo
  /\ outcome_of e = Returns (mkEncryptResult Toy.hello (repeat xff 16))
  /\ exists ctx inp n r,
       In (EVP_EncryptUpdate ctx OutBuf inp n, r) (trace_of e)
       /\ ciphertext (mkEncryptResult Toy.hello (repeat xff 16)) = out_store r.
Proof.
  intros info e.
  assert (Hr : outcome_of e = Returns (mkEncryptResult Toy.hello (repeat xff 16)))
    by reflexivity.
  split; [exact echo_reports_what_it_writes|]. split; [exact Hr|].
  exact (proj1 (returned_bytes_are_the_bytes_written unit echo
                  echo_reports_what_it_writes x00 0 tt info) _ Hr).
Defined.
